(** * Pollen forecast scraper: cache, refresh job and HTML extraction

    A shallow embedding of the three Go sources of the repository:
    - [main.go]              : [fetchParseAndJsonify], a synchronously
                               filled cache behind a [sync.Mutex];
    - [unnamed/part_000]     : [fetchCache], [refreshCacheJob] and
                               [rebuildCache] with a [cacheTimestamp];
    - [unnamed/part_001]     : the same without the timestamp, the
                               refresh job waiting for the first tick.

    Go's [int] is taken to be 64 bits wide.  The goquery document is
    abstracted as the list of selections matched by
    ["div.tx-dmi-data-store table table"], in document order; a selection
    is the list of its [tr] descendants; a [tr] is its [Text()] together
    with the [Text()] of each of its [td] descendants. *)

From Stdlib Require Import String Ascii List ZArith Bool Lia.
Import ListNotations.
Open Scope string_scope.
Open Scope Z_scope.

(** ** Go types *)

Record forecastValue := mkForecastValue {
  Name  : string;
  Value : Z
}.

Record forecast := mkForecast {
  CityName     : string;
  ForecastText : string;
  Values       : list forecastValue
}.

(** The [Err] field of a [strconv.NumError]. *)
Inductive numErr := ErrSyntax | ErrRange.

(** The errors the code builds with [fmt.Errorf] / [errors.New]. *)
Inductive error :=
| FetchError (msg : string)
    (* "error fetching from URL: %v" *)
| ParseError (strValue : string) (innerErr : numErr)
    (* "unable to parse pollen value for \"%s\": %v" *)
| CacheEmpty
    (* "Cache is empty, try again in a few seconds" *).

(** A Go [(T, error)] pair where only one side is meaningful. *)
Inductive result (A : Type) :=
| Ok (a : A)
| Err (e : error).
Arguments Ok {A} a.
Arguments Err {A} e.

(** [x != nil] for a Go [error] held in an option. *)
Definition is_not_nil {A : Type} (o : option A) : bool :=
  match o with Some _ => true | None => false end.

(** ** strconv.Atoi (64-bit [int]) *)

Definition is_digit (c : ascii) : bool :=
  (48 <=? nat_of_ascii c)%nat && (nat_of_ascii c <=? 57)%nat.

Definition digit_val (c : ascii) : Z := Z.of_nat (nat_of_ascii c) - 48.

(** Fast-path loop: [ch -= '0'; if ch > 9 {syntax error}; n = n*10 + ch].
    At most 18 digits reach it, so [n] never wraps. *)
Fixpoint atoi_fast_digits (s : string) (n : Z) : option Z :=
  match s with
  | EmptyString => Some n
  | String ch s' =>
      if is_digit ch then atoi_fast_digits s' (n * 10 + digit_val ch)
      else None
  end.

Definition maxUint64 : Z := 2 ^ 64 - 1.
Definition cutoff10 : Z := maxUint64 / 10 + 1.

(** The loop of [ParseUint(s, 10, 64)]: base 10, so no underscores and any
    letter gives a digit [>= base], i.e. a syntax error like any other byte. *)
Fixpoint parseUint_loop (s : string) (n : Z) : Z * option numErr :=
  match s with
  | EmptyString => (n, None)
  | String c s' =>
      if negb (is_digit c) then (0, Some ErrSyntax)
      else if n >=? cutoff10 then (maxUint64, Some ErrRange)
      else
        let n1 := n * 10 + digit_val c in
        if n1 >? maxUint64 then (maxUint64, Some ErrRange)
        else parseUint_loop s' n1
  end.

Definition parseUint (s : string) : Z * option numErr :=
  match s with
  | EmptyString => (0, Some ErrSyntax)
  | _ => parseUint_loop s 0
  end.

(** [ParseInt(s, 10, 0)] with [bitSize = 64]. *)
Definition parseInt (s : string) : Z * option numErr :=
  match s with
  | EmptyString => (0, Some ErrSyntax)
  | String c rest =>
      let '(neg, s1) :=
        if ascii_dec c "+" then (false, rest)
        else if ascii_dec c "-" then (true, rest)
        else (false, s) in
      let '(un, err) := parseUint s1 in
      match err with
      | Some ErrSyntax => (0, Some ErrSyntax)
      | _ =>
          if negb neg && (un >=? 2 ^ 63) then (2 ^ 63 - 1, Some ErrRange)
          else if neg && (un >? 2 ^ 63) then (- 2 ^ 63, Some ErrRange)
          else ((if neg then - un else un), err)
      end
  end.

Definition is_sign (c : ascii) : bool :=
  if ascii_dec c "-" then true else if ascii_dec c "+" then true else false.

(** [strconv.Atoi]: fast path for [0 < len(s) < 19], else [ParseInt]. *)
Definition atoi (s : string) : Z * option numErr :=
  let sLen := String.length s in
  if (0 <? sLen)%nat && (sLen <? 19)%nat then
    match s with
    | EmptyString => (0, Some ErrSyntax)
    | String c0 rest =>
        let s' := if is_sign c0 then rest else s in
        if is_sign c0 && (String.length s' <? 1)%nat then (0, Some ErrSyntax)
        else
          match atoi_fast_digits s' 0 with
          | None => (0, Some ErrSyntax)
          | Some n => ((if ascii_dec c0 "-" then - n else n), None)
          end
    end
  else parseInt s.

(** ** goquery, as far as the extraction uses it *)

Record tr := mkTr {
  tr_text : string;         (* sel.Text() *)
  tr_tds  : list string     (* Text() of each element of sel.Find("td") *)
}.

(** A matched ["table table"] selection: [selection.Find("tr")]. *)
Definition block := list tr.

(** [doc.Find("div.tx-dmi-data-store table table")]. *)
Definition document := list block.

(** [.First().Text()]: the empty string on an empty selection. *)
Definition first_text (l : list string) : string :=
  match l with
  | [] => ""
  | x :: _ => x
  end.

(** [.Last().Text()]: the empty string on an empty selection. *)
Fixpoint last_text (l : list string) : string :=
  match l with
  | [] => ""
  | [x] => x
  | _ :: l' => last_text l'
  end.

(** The outcome of [goquery.NewDocument(url)]. *)
Inductive fetch_outcome :=
| FetchFail (msg : string)
| Fetched (doc : document).

(** The [sync.RWMutex] (the [sync.Mutex] of main.go uses only [writer]). *)
Record mutex := mkMutex { writer : bool; readers : nat }.

Definition unlocked : mutex := mkMutex false 0.

Definition Lock (m : mutex) : option mutex :=
  if writer m || (0 <? readers m)%nat then None else Some (mkMutex true 0).
Definition Unlock (m : mutex) : mutex := mkMutex false (readers m).
Definition RLock (m : mutex) : option mutex :=
  if writer m then None else Some (mkMutex false (S (readers m))).
Definition RUnlock (m : mutex) : mutex := mkMutex (writer m) (pred (readers m)).

(** Scheduler log lines and the fate of the [refreshCacheJob] goroutine. *)
Inductive event :=
| Tick                        (* a 10-minute tick received *)
| LogRebuildOk                (* log.Println("Cache rebuild successful") *)
| LogFatal (e : error).       (* log.Fatalln("Error rebuilding cache:", err) *)

Inductive job_status :=
| Running       (* still looping when the inputs run out *)
| Terminated    (* log.Fatalln called os.Exit(1) *)
| Blocked.      (* waiting on the mutex *)

(** What a gin handler writes; the times given to [Format] are kept as the
    timestamp itself. *)
Inductive response :=
| RString (code : Z) (err : error)          (* c.String(code, err.Error()) *)
| RJSON (code : Z) (header : option Z) (output : list forecast)
    (* [c.Header("X-Cache-Timestamp", ...)] when present, then c.JSON(code, output) *)
| RHTML (code : Z) (output : list forecast) (stamp : Z)
    (* c.HTML(code, "index.html", {output, cacheTimestamp}) *)
| RAbort (code : Z) (err : error).         (* c.AbortWithError(code, err) *)

(** ** unnamed/part_001 *)
Module Part001.

Record state := mkState {
  cache      : option (list forecast);  (* [var cache []forecast]; None is nil *)
  cacheMutex : mutex;
  pending    : nat                      (* started [go rebuildCache()] not yet run *)
}.

Definition init : state := mkState None unlocked 0.

(** Body of [selection.Find("tr").Each(func(index, sel) {...})]; the pair
    holds the closure's [err] and [forecastValues]. *)
Definition tr_each (st : option error * list forecastValue) (sel : tr)
  : option error * list forecastValue :=
  let '(err, forecastValues) := st in
  if is_not_nil err || negb (Nat.eqb (length (tr_tds sel)) 2) then st
  else
    let strValue := last_text (tr_tds sel) in
    let '(value, err) :=
      if string_dec strValue "-" then (0, err)
      else
        let '(value, innerErr) := atoi strValue in
        match innerErr with
        | Some e => (value, Some (ParseError strValue e))
        | None => (value, err)
        end in
    (err, (forecastValues ++ [mkForecastValue (first_text (tr_tds sel)) value])%list).

(** Body of [doc.Find(...).Each(func(index, selection) {...})]; the pair
    holds [outerErr] and [forecasts]. *)
Definition table_each (st : option error * list forecast) (selection : block)
  : option error * list forecast :=
  let '(outerErr, forecasts) := st in
  if is_not_nil outerErr then st
  else
    let cityName := first_text (map tr_text selection) in
    let forecastText := last_text (map tr_text selection) in
    let '(err, forecastValues) := fold_left tr_each selection (None, []) in
    match err with
    | Some e => (Some e, forecasts)
    | None => (None, (forecasts ++ [mkForecast cityName forecastText forecastValues])%list)
    end.

(** Lines 100-154 of [rebuildCache]: from [forecasts := make(...)] to
    [if outerErr != nil { return outerErr }]. *)
Definition extract (doc : document) : result (list forecast) :=
  let '(outerErr, forecasts) := fold_left table_each doc (None, []) in
  match outerErr with
  | Some e => Err e
  | None => Ok forecasts
  end.

(** [rebuildCache() error]; [None] means [cacheMutex.Lock()] blocks. *)
Definition rebuildCache (fetch : fetch_outcome) (st : state)
  : option (state * option error) :=
  match Lock (cacheMutex st) with
  | None => None
  | Some m =>
      let st1 := mkState (cache st) m (pending st) in
      let '(st2, ret) :=
        match fetch with
        | FetchFail msg => (st1, Some (FetchError msg))
        | Fetched doc =>
            match extract doc with
            | Err e => (st1, Some e)
            | Ok forecasts => (mkState (Some forecasts) m (pending st), None)
            end
        end in
      (* defer cacheMutex.Unlock() *)
      Some (mkState (cache st2) (Unlock (cacheMutex st2)) (pending st2), ret)
  end.

(** [fetchCache() ([]forecast, error)]; [None] means [RLock] blocks. *)
Definition fetchCache (st : state) : option (state * result (list forecast)) :=
  match RLock (cacheMutex st) with
  | None => None
  | Some m =>
      let '(st2, r) :=
        match cache st with
        | None => (mkState None m (S (pending st)), Err CacheEmpty) (* go rebuildCache() *)
        | Some c => (mkState (Some c) m (pending st), Ok c)
        end in
      (* defer cacheMutex.RUnlock() *)
      Some (mkState (cache st2) (RUnlock (cacheMutex st2)) (pending st2), r)
  end.

(** One goroutine started by [go rebuildCache()] runs; its error is dropped. *)
Definition runSpawned (fetch : fetch_outcome) (st : state) : option state :=
  match pending st with
  | O => None
  | S k =>
      match rebuildCache fetch (mkState (cache st) (cacheMutex st) k) with
      | Some (st', _) => Some st'
      | None => None
      end
  end.

(** [refreshCacheJob]: [for range time.Tick(10 * time.Minute) { ... }];
    the list gives the fetch outcome at each tick. *)
Fixpoint refreshCacheJob (ticks : list fetch_outcome) (st : state)
  : state * list event * job_status :=
  match ticks with
  | [] => (st, [], Running)
  | f :: rest =>
      match rebuildCache f st with
      | None => (st, [Tick], Blocked)
      | Some (st', Some e) => (st', [Tick; LogFatal e], Terminated)
      | Some (st', None) =>
          let '(st'', evs, s) := refreshCacheJob rest st' in
          (st'', Tick :: LogRebuildOk :: evs, s)
      end
  end.

(** The operations that touch the cache, each atomic under the mutex. *)
Inductive op :=
| ORead                          (* an HTTP request calling fetchCache *)
| ORunSpawned (f : fetch_outcome)
| OPeriodic (f : fetch_outcome). (* the rebuild of one refreshCacheJob tick *)

Definition step (st : state) (o : op) : option state :=
  match o with
  | ORead => option_map fst (fetchCache st)
  | ORunSpawned f => runSpawned f st
  | OPeriodic f => option_map fst (rebuildCache f st)
  end.

Fixpoint exec (st : state) (ops : list op) : option state :=
  match ops with
  | [] => Some st
  | o :: os =>
      match step st o with
      | Some st' => exec st' os
      | None => None
      end
  end.

(** The handler of [r.GET("/", ...)] in [main]. *)
Definition handle_root (st : state) : option (state * response) :=
  match fetchCache st with
  | None => None
  | Some (st', Err e) => Some (st', RString 500 e)
  | Some (st', Ok output) => Some (st', RJSON 200 None output)
  end.

End Part001.

(** ** unnamed/part_000 *)
Module Part000.

Record state := mkState {
  cache          : option (list forecast);
  cacheTimestamp : Z;                     (* [time.Time], as a number *)
  cacheMutex     : mutex;
  pending        : nat
}.

Definition init : state := mkState None 0 unlocked 0.

Definition tr_each (st : option error * list forecastValue) (sel : tr)
  : option error * list forecastValue :=
  let '(err, forecastValues) := st in
  if is_not_nil err || negb (Nat.eqb (length (tr_tds sel)) 2) then st
  else
    let strValue := last_text (tr_tds sel) in
    let '(value, err) :=
      if string_dec strValue "-" then (0, err)
      else
        let '(value, innerErr) := atoi strValue in
        match innerErr with
        | Some e => (value, Some (ParseError strValue e))
        | None => (value, err)
        end in
    (err, (forecastValues ++ [mkForecastValue (first_text (tr_tds sel)) value])%list).

Definition table_each (st : option error * list forecast) (selection : block)
  : option error * list forecast :=
  let '(outerErr, forecasts) := st in
  if is_not_nil outerErr then st
  else
    let cityName := first_text (map tr_text selection) in
    let forecastText := last_text (map tr_text selection) in
    let '(err, forecastValues) := fold_left tr_each selection (None, []) in
    match err with
    | Some e => (Some e, forecasts)
    | None => (None, (forecasts ++ [mkForecast cityName forecastText forecastValues])%list)
    end.

(** Lines 122-176 of [rebuildCache]. *)
Definition extract (doc : document) : result (list forecast) :=
  let '(outerErr, forecasts) := fold_left table_each doc (None, []) in
  match outerErr with
  | Some e => Err e
  | None => Ok forecasts
  end.

(** [rebuildCache() error], with [now] the value of [time.Now().UTC()]. *)
Definition rebuildCache (fetch : fetch_outcome) (now : Z) (st : state)
  : option (state * option error) :=
  match Lock (cacheMutex st) with
  | None => None
  | Some m =>
      let st1 := mkState (cache st) (cacheTimestamp st) m (pending st) in
      let '(st2, ret) :=
        match fetch with
        | FetchFail msg => (st1, Some (FetchError msg))
        | Fetched doc =>
            match extract doc with
            | Err e => (st1, Some e)
            | Ok forecasts => (mkState (Some forecasts) now m (pending st), None)
            end
        end in
      Some (mkState (cache st2) (cacheTimestamp st2) (Unlock (cacheMutex st2))
              (pending st2), ret)
  end.

Definition fetchCache (st : state) : option (state * result (list forecast)) :=
  match RLock (cacheMutex st) with
  | None => None
  | Some m =>
      let '(st2, r) :=
        match cache st with
        | None => (mkState None (cacheTimestamp st) m (S (pending st)), Err CacheEmpty)
        | Some c => (mkState (Some c) (cacheTimestamp st) m (pending st), Ok c)
        end in
      Some (mkState (cache st2) (cacheTimestamp st2) (RUnlock (cacheMutex st2))
              (pending st2), r)
  end.

(** [refreshCacheJob]: [for { err := rebuildCache(); ...; <-time.Tick(...) }];
    the list gives the fetch outcome and clock of each iteration. *)
Fixpoint refreshCacheJob (iters : list (fetch_outcome * Z)) (st : state)
  : state * list event * job_status :=
  match iters with
  | [] => (st, [], Running)
  | (f, now) :: rest =>
      match rebuildCache f now st with
      | None => (st, [], Blocked)
      | Some (st', Some e) => (st', [LogFatal e], Terminated)
      | Some (st', None) =>
          let '(st'', evs, s) := refreshCacheJob rest st' in
          (st'', LogRebuildOk :: Tick :: evs, s)
      end
  end.

(** The handler of [r.GET("/", ...)] in [main]. *)
Definition handle_root (st : state) : option (state * response) :=
  match fetchCache st with
  | None => None
  | Some (st', Err e) => Some (st', RString 500 e)
  | Some (st', Ok output) => Some (st', RHTML 200 output (cacheTimestamp st'))
  end.

(** The handler of [r.GET("/api", ...)] in [main]. *)
Definition handle_api (st : state) : option (state * response) :=
  match fetchCache st with
  | None => None
  | Some (st', Err e) => Some (st', RString 500 e)
  | Some (st', Ok output) => Some (st', RJSON 200 (Some (cacheTimestamp st')) output)
  end.

Definition runSpawned (fetch : fetch_outcome) (now : Z) (st : state) : option state :=
  match pending st with
  | O => None
  | S k =>
      match rebuildCache fetch now (mkState (cache st) (cacheTimestamp st) (cacheMutex st) k) with
      | Some (st', _) => Some st'
      | None => None
      end
  end.

Inductive op :=
| ORead
| ORunSpawned (f : fetch_outcome) (now : Z)
| OPeriodic (f : fetch_outcome) (now : Z).

Definition step (st : state) (o : op) : option state :=
  match o with
  | ORead => option_map fst (fetchCache st)
  | ORunSpawned f now => runSpawned f now st
  | OPeriodic f now => option_map fst (rebuildCache f now st)
  end.

Fixpoint exec (st : state) (ops : list op) : option state :=
  match ops with
  | [] => Some st
  | o :: os =>
      match step st o with
      | Some st' => exec st' os
      | None => None
      end
  end.

End Part000.

(** ** main.go *)
Module Main.

Record state := mkState {
  cache      : option (list forecast);
  cacheMutex : mutex                      (* [sync.Mutex]: [readers] stays 0 *)
}.

Definition init : state := mkState None unlocked.

Definition tr_each (st : option error * list forecastValue) (sel : tr)
  : option error * list forecastValue :=
  let '(err, forecastValues) := st in
  if is_not_nil err || negb (Nat.eqb (length (tr_tds sel)) 2) then st
  else
    let strValue := last_text (tr_tds sel) in
    let '(value, err) :=
      if string_dec strValue "-" then (0, err)
      else
        let '(value, innerErr) := atoi strValue in
        match innerErr with
        | Some e => (value, Some (ParseError strValue e))
        | None => (value, err)
        end in
    (err, (forecastValues ++ [mkForecastValue (first_text (tr_tds sel)) value])%list).

Definition table_each (st : option error * list forecast) (selection : block)
  : option error * list forecast :=
  let '(outerErr, forecasts) := st in
  if is_not_nil outerErr then st
  else
    let cityName := first_text (map tr_text selection) in
    let forecastText := last_text (map tr_text selection) in
    let '(err, forecastValues) := fold_left tr_each selection (None, []) in
    match err with
    | Some e => (Some e, forecasts)
    | None => (None, (forecasts ++ [mkForecast cityName forecastText forecastValues])%list)
    end.

(** Lines 58-112 of [fetchParseAndJsonify]. *)
Definition extract (doc : document) : result (list forecast) :=
  let '(outerErr, forecasts) := fold_left table_each doc (None, []) in
  match outerErr with
  | Some e => Err e
  | None => Ok forecasts
  end.

(** [fetchParseAndJsonify() ([]forecast, error)], run without interleaving. *)
Definition fetchParseAndJsonify (fetch : fetch_outcome) (st : state)
  : option (state * result (list forecast)) :=
  match Lock (cacheMutex st) with
  | None => None
  | Some m =>
      match cache st with
      | Some c => Some (mkState (Some c) (Unlock m), Ok c)
      | None =>
          let st1 := mkState None (Unlock m) in
          match fetch with
          | FetchFail msg => Some (st1, Err (FetchError msg))
          | Fetched doc =>
              match extract doc with
              | Err e => Some (st1, Err e)
              | Ok forecasts =>
                  match Lock (cacheMutex st1) with
                  | None => None
                  | Some m2 => Some (mkState (Some forecasts) (Unlock m2), Ok forecasts)
                  end
              end
          end
      end
  end.

(** The handler of [r.GET("/", ...)] in [main]. *)
Definition handle_root (fetch : fetch_outcome) (st : state) : option (state * response) :=
  match fetchParseAndJsonify fetch st with
  | None => None
  | Some (st', Err e) => Some (st', RAbort 500 e)
  | Some (st', Ok output) => Some (st', RJSON 200 None output)
  end.

(** Requests served one after another, each seeing its own fetch outcome. *)
Fixpoint serve (fetches : list fetch_outcome) (st : state)
  : option (state * list (result (list forecast))) :=
  match fetches with
  | [] => Some (st, [])
  | f :: fs =>
      match fetchParseAndJsonify f st with
      | None => None
      | Some (st', r) =>
          match serve fs st' with
          | None => None
          | Some (st'', rs) => Some (st'', r :: rs)
          end
      end
  end.

End Main.

(** ** Structured reading of the extraction

    The nested [Each] loops with their [err]/[outerErr] flags, read as a
    fold of one tagged result per row ([None] for a skipped row). *)
Module Structured.

Definition two_cells (r : tr) : bool := Nat.eqb (length (tr_tds r)) 2.

Definition row_value (r : tr) : option (result forecastValue) :=
  if negb (two_cells r) then None
  else
    let s := last_text (tr_tds r) in
    if string_dec s "-" then Some (Ok (mkForecastValue (first_text (tr_tds r)) 0))
    else
      match atoi s with
      | (v, None) => Some (Ok (mkForecastValue (first_text (tr_tds r)) v))
      | (_, Some e) => Some (Err (ParseError s e))
      end.

Fixpoint row_values (rows : list tr) : result (list forecastValue) :=
  match rows with
  | [] => Ok []
  | r :: rs =>
      match row_value r with
      | None => row_values rs
      | Some (Err e) => Err e
      | Some (Ok v) =>
          match row_values rs with
          | Ok vs => Ok (v :: vs)
          | Err e => Err e
          end
      end
  end.

Definition block_record (b : block) : result forecast :=
  match row_values b with
  | Ok vs => Ok (mkForecast (first_text (map tr_text b)) (last_text (map tr_text b)) vs)
  | Err e => Err e
  end.

Fixpoint records (doc : document) : result (list forecast) :=
  match doc with
  | [] => Ok []
  | b :: bs =>
      match block_record b with
      | Err e => Err e
      | Ok f =>
          match records bs with
          | Ok fs => Ok (f :: fs)
          | Err e => Err e
          end
      end
  end.

End Structured.

(** ** Predicates used in the statements *)

(** A row that the inner loop treats as a measurement whose value text is
    neither the placeholder nor accepted by [strconv.Atoi]. *)
Definition bad_row (r : tr) : Prop :=
  length (tr_tds r) = 2%nat /\
  last_text (tr_tds r) <> "-" /\
  snd (atoi (last_text (tr_tds r))) <> None.

(** Every measurement row of every block is the placeholder or a number. *)
Definition valid_document (doc : document) : Prop :=
  forall b r, In b doc -> In r b -> length (tr_tds r) = 2%nat ->
    last_text (tr_tds r) = "-" \/ snd (atoi (last_text (tr_tds r))) = None.

Definition is_ok {A : Type} (r : result A) : bool :=
  match r with Ok _ => true | Err _ => false end.

(** A rebuild whose fetch or extraction fails. *)
Definition rebuild_fails (extract : document -> result (list forecast))
  (f : fetch_outcome) : bool :=
  match f with
  | FetchFail _ => true
  | Fetched doc => negb (is_ok (extract doc))
  end.

(** An operation that runs a rebuild which succeeds. *)
Definition succeeded (o : Part001.op) : bool :=
  match o with
  | Part001.ORead => false
  | Part001.ORunSpawned f | Part001.OPeriodic f => negb (rebuild_fails Part001.extract f)
  end.

(** Scenario A of the spec. *)
Definition scenario_A : document :=
  [[mkTr "Aarhus" ["Aarhus"];
    mkTr "Birk12" ["Birk"; "12"];
    mkTr "El-" ["El"; "-"];
    mkTr "Lav" ["Lav"]]].

(** Reading aid for [strconv.Atoi]: an optional sign and at least one
    decimal digit, the digits read as by the fast path's loop. *)
Definition decimal (s : string) : option Z :=
  match s with
  | EmptyString => None
  | String c rest =>
      let '(neg, digits) :=
        if ascii_dec c "-" then (true, rest)
        else if ascii_dec c "+" then (false, rest)
        else (false, s) in
      match digits with
      | EmptyString => None
      | _ => option_map (fun n => if neg then - n else n) (atoi_fast_digits digits 0)
      end
  end.

(** The forecasts a successful rebuild with outcome [f] would publish. *)
Definition published (extract : document -> result (list forecast))
  (f : fetch_outcome) : option (list forecast) :=
  match f with
  | Fetched doc => match extract doc with Ok fs => Some fs | Err _ => None end
  | FetchFail _ => None
  end.

(** The cache after a run of part_001 operations: the forecasts of the last
    successful rebuild, or the initial cache. *)
Fixpoint last_success (ops : list Part001.op) (acc : option (list forecast))
  : option (list forecast) :=
  match ops with
  | [] => acc
  | o :: os =>
      let acc' :=
        match o with
        | Part001.ORead => acc
        | Part001.ORunSpawned f | Part001.OPeriodic f =>
            match published Part001.extract f with Some fs => Some fs | None => acc end
        end in
      last_success os acc'
  end.

(** The same for part_000, with the clock of that rebuild. *)
Fixpoint last_success000 (ops : list Part000.op) (acc : option (list forecast * Z))
  : option (list forecast * Z) :=
  match ops with
  | [] => acc
  | o :: os =>
      let acc' :=
        match o with
        | Part000.ORead => acc
        | Part000.ORunSpawned f now | Part000.OPeriodic f now =>
            match published Part000.extract f with Some fs => Some (fs, now) | None => acc end
        end in
      last_success000 os acc'
  end.

(** ** Extraction lemmas *)
Section Extraction.
Import Structured.
Local Open Scope list_scope.

Lemma tr_fold_err : forall rows e acc,
  fold_left Part001.tr_each rows (Some e, acc) = (Some e, acc).
Proof. induction rows; simpl; auto. Qed.

Lemma tr_each_step : forall r acc,
  match row_value r with
  | None => Part001.tr_each (None, acc) r = (None, acc)
  | Some (Ok v) => Part001.tr_each (None, acc) r = (None, acc ++ [v])
  | Some (Err e) => fst (Part001.tr_each (None, acc) r) = Some e
  end.
Proof.
  intros r acc. unfold Part001.tr_each, row_value, two_cells. simpl.
  destruct (Nat.eqb (length (tr_tds r)) 2); simpl; [|reflexivity].
  destruct (string_dec (last_text (tr_tds r)) "-"); [reflexivity|].
  destruct (atoi (last_text (tr_tds r))) as [v [e|]]; reflexivity.
Qed.

Lemma tr_fold_spec : forall rows acc,
  match row_values rows with
  | Ok vs => fold_left Part001.tr_each rows (None, acc) = (None, acc ++ vs)
  | Err e => fst (fold_left Part001.tr_each rows (None, acc)) = Some e
  end.
Proof.
  induction rows as [|r rs IH]; intro acc; cbn [fold_left row_values].
  - rewrite app_nil_r; reflexivity.
  - pose proof (tr_each_step r acc) as Hs.
    destruct (row_value r) as [[v|e]|].
    + rewrite Hs. specialize (IH (acc ++ [v])).
      destruct (row_values rs) as [vs|e].
      * rewrite IH, <- app_assoc; reflexivity.
      * exact IH.
    + destruct (Part001.tr_each (None, acc) r) as [err z]; simpl in Hs; subst.
      rewrite tr_fold_err; reflexivity.
    + rewrite Hs. apply IH.
Qed.

Lemma table_fold_err : forall doc e acc,
  fold_left Part001.table_each doc (Some e, acc) = (Some e, acc).
Proof. induction doc; simpl; auto. Qed.

Lemma table_each_step : forall b acc,
  Part001.table_each (None, acc) b =
  match block_record b with
  | Ok f => (None, acc ++ [f])
  | Err e => (Some e, acc)
  end.
Proof.
  intros b acc. unfold Part001.table_each, block_record. simpl.
  pose proof (tr_fold_spec b []) as H.
  destruct (row_values b) as [vs|e].
  - rewrite H; reflexivity.
  - destruct (fold_left Part001.tr_each b (None, [])) as [err z].
    simpl in H; subst; reflexivity.
Qed.

Lemma table_fold_spec : forall doc acc,
  match records doc with
  | Ok fs => fold_left Part001.table_each doc (None, acc) = (None, acc ++ fs)
  | Err e => fst (fold_left Part001.table_each doc (None, acc)) = Some e
  end.
Proof.
  induction doc as [|b bs IH]; intro acc; cbn [fold_left records].
  - rewrite app_nil_r; reflexivity.
  - rewrite table_each_step.
    destruct (block_record b) as [f|e].
    + specialize (IH (acc ++ [f])).
      destruct (records bs) as [fs|e].
      * rewrite IH, <- app_assoc; reflexivity.
      * exact IH.
    + rewrite table_fold_err; reflexivity.
Qed.

Lemma extract_records : forall doc, Part001.extract doc = records doc.
Proof.
  intro doc. unfold Part001.extract.
  pose proof (table_fold_spec doc []) as H.
  destruct (records doc) as [fs|e].
  - rewrite H; reflexivity.
  - destruct (fold_left Part001.table_each doc (None, [])) as [err z].
    simpl in H; subst; reflexivity.
Qed.

Lemma extract_000_001 : forall doc, Part000.extract doc = Part001.extract doc.
Proof. reflexivity. Qed.

Lemma extract_main_001 : forall doc, Main.extract doc = Part001.extract doc.
Proof. reflexivity. Qed.

Lemma row_value_none : forall r, row_value r = None <-> two_cells r = false.
Proof.
  intro r. unfold row_value.
  destruct (two_cells r); simpl; [|tauto].
  split; [|discriminate].
  destruct (string_dec _ _); [discriminate|].
  destruct (atoi _) as [v [e|]]; discriminate.
Qed.

Lemma row_value_err : forall r e, row_value r = Some (Err e) ->
  exists s ne, e = ParseError s ne /\ length (tr_tds r) = 2%nat /\
    last_text (tr_tds r) = s /\ s <> "-" /\ snd (atoi s) = Some ne.
Proof.
  intros r e. unfold row_value, two_cells.
  destruct (Nat.eqb (length (tr_tds r)) 2) eqn:H2; simpl; [|discriminate].
  apply Nat.eqb_eq in H2.
  destruct (string_dec _ _) as [|Hd]; [discriminate|].
  destruct (atoi (last_text (tr_tds r))) as [v [ne|]] eqn:Ha; [|discriminate].
  intro H; inversion H; subst.
  exists (last_text (tr_tds r)), ne. rewrite Ha; auto.
Qed.

Lemma row_value_bad : forall r, bad_row r -> exists e, row_value r = Some (Err e).
Proof.
  intros r [H2 [Hd Ha]]. unfold row_value, two_cells.
  rewrite H2; simpl.
  destruct (string_dec _ _) as [|_]; [contradiction|].
  destruct (atoi (last_text (tr_tds r))) as [v [ne|]]; simpl in Ha;
    [eauto | contradiction].
Qed.

Lemma row_value_ok : forall r v, row_value r = Some (Ok v) ->
  exists a b, tr_tds r = [a; b] /\ Name v = a /\
    (b = "-" -> Value v = 0) /\ (b <> "-" -> atoi b = (Value v, None)).
Proof.
  intros r v. unfold row_value, two_cells.
  destruct (Nat.eqb (length (tr_tds r)) 2) eqn:H2; simpl; [|discriminate].
  apply Nat.eqb_eq in H2.
  destruct (tr_tds r) as [|a [|b [|c l]]]; simpl in H2; try discriminate.
  simpl. destruct (string_dec b "-") as [Hd|Hd].
  - intro H; inversion H; subst; simpl. exists a, "-"; repeat split; auto.
    intro C; contradiction.
  - destruct (atoi b) as [z [ne|]] eqn:Ha; [discriminate|].
    intro H; inversion H; subst; simpl.
    exists a, b; repeat split; auto. intro C; contradiction.
Qed.

Lemma row_values_err : forall rows e, row_values rows = Err e ->
  exists r, In r rows /\ row_value r = Some (Err e).
Proof.
  induction rows as [|r rs IH]; intros e H; simpl in H; [discriminate|].
  destruct (row_value r) as [[v|e']|] eqn:Hr.
  - destruct (row_values rs) eqn:Hrs; inversion H; subst.
    destruct (IH e eq_refl) as [r' [Hin Hr']]; exists r'; simpl; auto.
  - inversion H; subst; exists r; simpl; auto.
  - destruct (IH e H) as [r' [Hin Hr']]; exists r'; simpl; auto.
Qed.

Lemma row_values_bad : forall rows r, In r rows -> bad_row r ->
  exists e, row_values rows = Err e.
Proof.
  induction rows as [|r0 rs IH]; intros r Hin Hb; [destruct Hin|].
  simpl. destruct Hin as [->|Hin].
  - destruct (row_value_bad r Hb) as [e He]; rewrite He; eauto.
  - destruct (IH r Hin Hb) as [e He]; rewrite He.
    destruct (row_value r0) as [[v|e']|]; eauto.
Qed.

Lemma row_values_ok : forall rows vs, row_values rows = Ok vs ->
  Forall2 (fun r v => row_value r = Some (Ok v)) (filter two_cells rows) vs.
Proof.
  induction rows as [|r rs IH]; intros vs H; simpl in H.
  - inversion H; constructor.
  - simpl. destruct (row_value r) as [[v|e]|] eqn:Hr.
    + assert (Ht : two_cells r = true).
      { destruct (two_cells r) eqn:E; auto. apply row_value_none in E; congruence. }
      rewrite Ht. destruct (row_values rs) eqn:Hrs; inversion H; subst.
      constructor; auto.
    + discriminate.
    + apply row_value_none in Hr. rewrite Hr. auto.
Qed.

Lemma row_values_valid : forall rows,
  (forall r, In r rows -> length (tr_tds r) = 2%nat ->
     last_text (tr_tds r) = "-" \/ snd (atoi (last_text (tr_tds r))) = None) ->
  exists vs, row_values rows = Ok vs.
Proof.
  induction rows as [|r rs IH]; intro Hv; simpl; [eauto|].
  destruct IH as [vs Hvs]; [intros; apply Hv; simpl; auto|].
  rewrite Hvs.
  destruct (row_value r) as [[v|e]|] eqn:Hr; eauto.
  apply row_value_err in Hr as [s [ne [_ [H2 [Hs [Hd Ha]]]]]]; subst.
  destruct (Hv r (or_introl eq_refl) H2) as [H|H]; [contradiction|congruence].
Qed.

Lemma records_err : forall doc e, records doc = Err e ->
  exists b r, In b doc /\ In r b /\ row_value r = Some (Err e).
Proof.
  induction doc as [|b bs IH]; intros e H; simpl in H; [discriminate|].
  unfold block_record in H.
  destruct (row_values b) as [vs|e'] eqn:Hb.
  - destruct (records bs) eqn:Hbs; inversion H; subst.
    destruct (IH e eq_refl) as [b' [r [Hin [Hr Hv]]]].
    exists b', r; simpl; auto.
  - inversion H; subst. apply row_values_err in Hb as [r [Hr Hv]].
    exists b, r; simpl; auto.
Qed.

Lemma records_bad : forall doc b r, In b doc -> In r b -> bad_row r ->
  exists e, records doc = Err e.
Proof.
  induction doc as [|b0 bs IH]; intros b r Hb Hr Hbad; [destruct Hb|].
  simpl. unfold block_record at 1. destruct Hb as [->|Hb].
  - destruct (row_values_bad b r Hr Hbad) as [e He]; rewrite He; eauto.
  - destruct (IH b r Hb Hr Hbad) as [e He]; rewrite He.
    destruct (row_values b0); eauto.
Qed.

Lemma records_ok : forall doc fs, records doc = Ok fs ->
  Forall2 (fun b f => CityName f = first_text (map tr_text b) /\
                      ForecastText f = last_text (map tr_text b) /\
                      row_values b = Ok (Values f)) doc fs.
Proof.
  induction doc as [|b bs IH]; intros fs H; simpl in H.
  - inversion H; constructor.
  - unfold block_record in H.
    destruct (row_values b) as [vs|e] eqn:Hb; [|discriminate].
    destruct (records bs) eqn:Hbs; inversion H; subst.
    constructor; simpl; auto.
Qed.

Lemma records_valid : forall doc, valid_document doc ->
  exists fs, records doc = Ok fs.
Proof.
  induction doc as [|b bs IH]; intro Hv; simpl; [eauto|].
  destruct IH as [fs Hfs]; [intros b' r Hb' Hr; apply (Hv b'); simpl; auto|].
  rewrite Hfs. unfold block_record.
  destruct (row_values_valid b) as [vs Hvs];
    [intros r Hr; apply (Hv b); simpl; auto|].
  rewrite Hvs; eauto.
Qed.

End Extraction.

(** ** strconv.Atoi lemmas *)
Section Atoi.

Lemma digit_val_range : forall c, is_digit c = true -> 0 <= digit_val c <= 9.
Proof.
  intros c H. unfold is_digit in H. apply andb_true_iff in H as [H1 H2].
  apply Nat.leb_le in H1, H2. unfold digit_val. lia.
Qed.

Lemma fast_digits_bound : forall s n m, atoi_fast_digits s n = Some m -> 0 <= n ->
  n * 10 ^ Z.of_nat (String.length s) <= m < (n + 1) * 10 ^ Z.of_nat (String.length s).
Proof.
  induction s as [|c s IH]; intros n m H Hn; simpl in H.
  - inversion H; subst. simpl. lia.
  - destruct (is_digit c) eqn:Hc; [|discriminate].
    pose proof (digit_val_range c Hc) as Hd.
    assert (Hn' : 0 <= n * 10 + digit_val c) by lia.
    specialize (IH _ _ H Hn').
    cbn [String.length]. rewrite Nat2Z.inj_succ, Z.pow_succ_r by lia.
    pose proof (Z.pow_pos_nonneg 10 (Z.of_nat (String.length s)) ltac:(lia) ltac:(lia)).
    nia.
Qed.

Lemma parseUint_loop_nonneg : forall s n un, 0 <= n ->
  parseUint_loop s n = (un, None) -> 0 <= un.
Proof.
  induction s as [|c s IH]; intros n un Hn H; simpl in H.
  - inversion H; subst; assumption.
  - destruct (is_digit c) eqn:Hc; simpl in H; [|discriminate].
    destruct (n >=? cutoff10); [discriminate|].
    destruct (n * 10 + digit_val c >? maxUint64); [discriminate|].
    pose proof (digit_val_range c Hc).
    assert (Hn' : 0 <= n * 10 + digit_val c) by lia.
    exact (IH _ _ Hn' H).
Qed.

(** An accepted [Atoi] result is an [int64], negative only after a '-'. *)
Lemma atoi_accepted : forall s, snd (atoi s) = None ->
  - 2 ^ 63 <= fst (atoi s) <= 2 ^ 63 - 1 /\
  (fst (atoi s) < 0 -> exists rest, s = String "-" rest).
Proof.
  intros s. unfold atoi.
  destruct ((0 <? String.length s)%nat && (String.length s <? 19)%nat) eqn:Hl.
  - apply andb_true_iff in Hl as [_ Hl]. apply Nat.ltb_lt in Hl.
    destruct s as [|c0 rest]; [discriminate|].
    set (s' := if is_sign c0 then rest else String c0 rest).
    assert (Hs' : (String.length s' <= 18)%nat)
      by (unfold s'; destruct (is_sign c0); simpl in *; lia).
    destruct (is_sign c0 && (String.length s' <? 1)%nat); [discriminate|].
    destruct (atoi_fast_digits s' 0) as [n|] eqn:Hf; [|discriminate].
    intros _. simpl.
    pose proof (fast_digits_bound s' 0 n Hf ltac:(lia)) as Hb.
    assert (H18 : 10 ^ Z.of_nat (String.length s') <= 10 ^ 18)
      by (apply Z.pow_le_mono_r; lia).
    destruct (ascii_dec c0 "-") as [->|Hc].
    + split; [lia|]. intros _; eauto.
    + lia.
  - destruct s as [|c rest]; [discriminate|]. cbn [parseInt].
    destruct (ascii_dec c "+") as [Hp|Hp];
      [|destruct (ascii_dec c "-") as [Hm|Hm]];
    [set (neg := false); set (s1 := rest)
    |set (neg := true); set (s1 := rest)
    |set (neg := false); set (s1 := String c rest)];
    (assert (Hun : forall un, parseUint s1 = (un, None) -> 0 <= un)
       by (intros un; unfold parseUint; destruct s1;
           [discriminate | apply parseUint_loop_nonneg; lia]));
    change (let '(un, err) := parseUint s1 in
             match err with
             | Some ErrSyntax => (0, Some ErrSyntax)
             | _ =>
                 if negb neg && (un >=? 2 ^ 63) then (2 ^ 63 - 1, Some ErrRange)
                 else if neg && (un >? 2 ^ 63) then (- 2 ^ 63, Some ErrRange)
                 else ((if neg then - un else un), err)
             end) with
      (let '(un, err) := parseUint s1 in
             match err with
             | Some ErrSyntax => (0, Some ErrSyntax)
             | _ =>
                 if negb neg && (un >=? 2 ^ 63) then (2 ^ 63 - 1, Some ErrRange)
                 else if neg && (un >? 2 ^ 63) then (- 2 ^ 63, Some ErrRange)
                 else ((if neg then - un else un), err)
             end);
    destruct (parseUint s1) as [un [[|]|]] eqn:Hu; try discriminate;
    try specialize (Hun un eq_refl); subst neg; cbn [negb andb];
    repeat match goal with
           | |- context [if ?b then _ else _] => destruct b eqn:?
           end; simpl; try discriminate; intros _;
    repeat match goal with
           | H : (_ >=? _) = true |- _ => rewrite Z.geb_leb, Z.leb_le in H
           | H : (_ >=? _) = false |- _ => rewrite Z.geb_leb, Z.leb_gt in H
           | H : (_ >? _) = true |- _ => rewrite Z.gtb_ltb, Z.ltb_lt in H
           | H : (_ >? _) = false |- _ => rewrite Z.gtb_ltb, Z.ltb_ge in H
           end;
    try (split; [lia|intros; lia]).
    split; [lia|]. intros _; subst; eauto.
Qed.

End Atoi.

(** ** Cache lemmas *)
Section Cache.
Local Open Scope list_scope.

Lemma Part001_rebuild_unlocked : forall f st,
  Part001.cacheMutex st = unlocked ->
  Part001.rebuildCache f st =
  Some (match f with
        | FetchFail msg => (st, Some (FetchError msg))
        | Fetched doc =>
            match Part001.extract doc with
            | Err e => (st, Some e)
            | Ok fs => (Part001.mkState (Some fs) unlocked (Part001.pending st), None)
            end
        end).
Proof.
  intros f [c m p] Hm; simpl in Hm; subst m.
  unfold Part001.rebuildCache; simpl.
  destruct f as [msg|doc]; [reflexivity|].
  destruct (Part001.extract doc); reflexivity.
Qed.

Lemma Part000_rebuild_unlocked : forall f now st,
  Part000.cacheMutex st = unlocked ->
  Part000.rebuildCache f now st =
  Some (match f with
        | FetchFail msg => (st, Some (FetchError msg))
        | Fetched doc =>
            match Part000.extract doc with
            | Err e => (st, Some e)
            | Ok fs => (Part000.mkState (Some fs) now unlocked (Part000.pending st), None)
            end
        end).
Proof.
  intros f now [c t m p] Hm; simpl in Hm; subst m.
  unfold Part000.rebuildCache; simpl.
  destruct f as [msg|doc]; [reflexivity|].
  destruct (Part000.extract doc); reflexivity.
Qed.

Lemma Part001_fetchCache_free : forall st,
  writer (Part001.cacheMutex st) = false ->
  Part001.fetchCache st =
  Some (match Part001.cache st with
        | None => (Part001.mkState None (Part001.cacheMutex st) (S (Part001.pending st)),
                   Err CacheEmpty)
        | Some c => (st, Ok c)
        end).
Proof.
  intros [c [w r] p] Hw; simpl in Hw; subst w.
  unfold Part001.fetchCache; simpl. destruct c; reflexivity.
Qed.

Lemma Part000_fetchCache_free : forall st,
  writer (Part000.cacheMutex st) = false ->
  Part000.fetchCache st =
  Some (match Part000.cache st with
        | None => (Part000.mkState None (Part000.cacheTimestamp st) (Part000.cacheMutex st)
                     (S (Part000.pending st)), Err CacheEmpty)
        | Some c => (st, Ok c)
        end).
Proof.
  intros [c t [w r] p] Hw; simpl in Hw; subst w.
  unfold Part000.fetchCache; simpl. destruct c; reflexivity.
Qed.

Lemma Part001_step_inv : forall st o st',
  Part001.cacheMutex st = unlocked -> Part001.step st o = Some st' ->
  Part001.cacheMutex st' = unlocked /\
  (Part001.cache st' = None <-> Part001.cache st = None /\ succeeded o = false).
Proof.
  intros st o st' Hm Hs.
  destruct o as [|f|f]; simpl in Hs.
  - rewrite Part001_fetchCache_free in Hs by (rewrite Hm; reflexivity).
    simpl in Hs. destruct (Part001.cache st) eqn:Hc; inversion Hs; subst; simpl;
      rewrite ?Hc; intuition congruence.
  - unfold Part001.runSpawned in Hs. destruct (Part001.pending st) as [|k]; [discriminate|].
    rewrite Part001_rebuild_unlocked in Hs by exact Hm.
    unfold succeeded, rebuild_fails.
    destruct f as [msg|doc]; [|destruct (Part001.extract doc)];
      inversion Hs; subst; simpl; intuition congruence.
  - rewrite Part001_rebuild_unlocked in Hs by exact Hm.
    unfold succeeded, rebuild_fails.
    destruct f as [msg|doc]; [|destruct (Part001.extract doc)];
      inversion Hs; subst; simpl; intuition congruence.
Qed.

Lemma Part001_exec_inv : forall ops st st',
  Part001.cacheMutex st = unlocked -> Part001.exec st ops = Some st' ->
  Part001.cacheMutex st' = unlocked /\
  (Part001.cache st' = None <-> Part001.cache st = None /\ existsb succeeded ops = false).
Proof.
  induction ops as [|o os IH]; intros st st' Hm He; simpl in He.
  - inversion He; subst; simpl; intuition.
  - destruct (Part001.step st o) as [s1|] eqn:Hs; [|discriminate].
    destruct (Part001_step_inv st o s1 Hm Hs) as [Hm1 Hc1].
    destruct (IH s1 st' Hm1 He) as [Hm' Hc'].
    split; [exact Hm'|]. simpl. rewrite Hc', Hc1, orb_false_iff. tauto.
Qed.

Lemma Forall2_in_r : forall {A B : Type} (R : A -> B -> Prop) l1 l2 y,
  Forall2 R l1 l2 -> In y l2 -> exists x, In x l1 /\ R x y.
Proof.
  intros A B R l1 l2 y H; induction H as [|x y' l1 l2 Hxy _ IH]; intro Hin;
    [destruct Hin|].
  destruct Hin as [<-|Hin]; [exists x; simpl; auto|].
  destruct (IH Hin) as [x' [Hx' HR]]; exists x'; simpl; auto.
Qed.

Lemma row_values_no_rows : forall rows,
  filter Structured.two_cells rows = [] -> Structured.row_values rows = Ok [].
Proof.
  induction rows as [|r rs IH]; intro H; simpl in *; [reflexivity|].
  destruct (Structured.two_cells r) eqn:Ht; [discriminate|].
  apply row_value_none in Ht.
  rewrite Ht. auto.
Qed.

End Cache.

(** ** Further lemmas on strconv.Atoi *)
Section AtoiGrammar.

Lemma cutoff10_val : cutoff10 = 1844674407370955162.
Proof. reflexivity. Qed.

Lemma maxUint64_val : maxUint64 = 18446744073709551615.
Proof. reflexivity. Qed.

Lemma fast_digits_ge : forall s n m, atoi_fast_digits s n = Some m -> 0 <= n ->
  n * 10 ^ Z.of_nat (String.length s) <= m.
Proof. intros s n m H Hn. apply (fast_digits_bound s n m H Hn). Qed.

Lemma parseUint_loop_accept : forall s n un, 0 <= n <= maxUint64 ->
  (parseUint_loop s n = (un, None) <-> atoi_fast_digits s n = Some un /\ un <= maxUint64).
Proof.
  induction s as [|c s IH]; intros n un Hn; simpl.
  - split; [intro H; inversion H; subst; split; [reflexivity|lia]
           | intros [H _]; inversion H; reflexivity].
  - destruct (is_digit c) eqn:Hc; simpl.
    + pose proof (digit_val_range c Hc) as Hd.
      pose proof (Z.pow_pos_nonneg 10 (Z.of_nat (String.length s)) ltac:(lia) ltac:(lia)).
      rewrite cutoff10_val, maxUint64_val in *.
      destruct (n >=? 1844674407370955162) eqn:Hcut.
      * rewrite Z.geb_leb, Z.leb_le in Hcut.
        split; [discriminate|]. intros [Hf Hle].
        apply fast_digits_ge in Hf; [nia | lia].
      * rewrite Z.geb_leb, Z.leb_gt in Hcut.
        destruct (n * 10 + digit_val c >? 18446744073709551615) eqn:Hov.
        -- rewrite Z.gtb_ltb, Z.ltb_lt in Hov.
           split; [discriminate|]. intros [Hf Hle].
           apply fast_digits_ge in Hf; [nia | lia].
        -- rewrite Z.gtb_ltb, Z.ltb_ge in Hov.
           apply IH. lia.
    + split; [discriminate | intros [H _]; discriminate].
Qed.

Lemma parseUint_accept : forall s un,
  parseUint s = (un, None) <->
  s <> EmptyString /\ atoi_fast_digits s 0 = Some un /\ un <= maxUint64.
Proof.
  intros [|c s] un; simpl.
  - split; [discriminate | intros [H _]; contradiction].
  - rewrite (parseUint_loop_accept (String c s) 0 un) by (rewrite maxUint64_val; lia).
    simpl. split; [intros [H1 H2]; split; [discriminate|]; auto | intros [_ H]; exact H].
Qed.

(** After the sign: [ParseUint] and the [int64] cut-offs of [ParseInt]. *)
Lemma parseInt_signed_accept : forall (neg : bool) s1 v,
  (let '(un, err) := parseUint s1 in
   match err with
   | Some ErrSyntax => (0, Some ErrSyntax)
   | _ =>
       if negb neg && (un >=? 2 ^ 63) then (2 ^ 63 - 1, Some ErrRange)
       else if neg && (un >? 2 ^ 63) then (- 2 ^ 63, Some ErrRange)
       else ((if neg then - un else un), err)
   end) = (v, None) <->
  (match s1 with
   | EmptyString => None
   | _ => option_map (fun n => if neg then - n else n) (atoi_fast_digits s1 0)
   end = Some v /\ - 2 ^ 63 <= v <= 2 ^ 63 - 1).
Proof.
  intros neg s1 v.
  assert (Hback : forall n, s1 <> EmptyString -> atoi_fast_digits s1 0 = Some n ->
            - 2 ^ 63 <= (if neg then - n else n) <= 2 ^ 63 - 1 -> parseUint s1 = (n, None)).
  { intros n Hne Hf Hr. apply parseUint_accept. split; [exact Hne|]. split; [exact Hf|].
    apply fast_digits_ge in Hf; [|lia]. rewrite maxUint64_val.
    destruct neg; lia. }
  assert (Hrhs : forall P : Prop,
            (forall n, s1 <> EmptyString -> atoi_fast_digits s1 0 = Some n ->
               v = (if neg then - n else n) -> - 2 ^ 63 <= v <= 2 ^ 63 - 1 -> P) ->
            (match s1 with
             | EmptyString => None
             | _ => option_map (fun n => if neg then - n else n) (atoi_fast_digits s1 0)
             end = Some v /\ - 2 ^ 63 <= v <= 2 ^ 63 - 1) -> P).
  { intros P HP [H Hr]. destruct s1 as [|c1 r1]; [discriminate|].
    destruct (atoi_fast_digits (String c1 r1) 0) as [n|] eqn:Hf; [|discriminate].
    simpl in H. inversion H; subst. apply (HP n); auto. discriminate. }
  destruct (parseUint s1) as [un [[|]|]] eqn:Hu.
  - split; [discriminate|].
    intro HR; refine (Hrhs _ _ HR); intros n Hne Hf Hv Hr; subst v.
    discriminate (Hback n Hne Hf Hr).
  - split; [destruct neg; simpl; repeat destruct (_ >? _); repeat destruct (_ >=? _);
            discriminate|].
    intro HR; refine (Hrhs _ _ HR); intros n Hne Hf Hv Hr; subst v.
    discriminate (Hback n Hne Hf Hr).
  - apply parseUint_accept in Hu as [Hne [Hf Hle]].
    pose proof (fast_digits_ge _ _ _ Hf ltac:(lia)) as Hge.
    assert (Hr : match s1 with
                 | EmptyString => None
                 | _ => option_map (fun n => if neg then - n else n) (atoi_fast_digits s1 0)
                 end = Some (if neg then - un else un))
      by (destruct s1; [contradiction|]; rewrite Hf; reflexivity).
    rewrite Hr.
    destruct neg; cbn [negb andb].
    + destruct (un >? 2 ^ 63) eqn:E.
      * rewrite Z.gtb_ltb, Z.ltb_lt in E. split; [discriminate|].
        intros [H Hv]; inversion H; lia.
      * rewrite Z.gtb_ltb, Z.ltb_ge in E.
        split; [intro H; inversion H; subst; split; [reflexivity|lia]|].
        intros [H _]; inversion H; reflexivity.
    + destruct (un >=? 2 ^ 63) eqn:E.
      * rewrite Z.geb_leb, Z.leb_le in E. split; [discriminate|].
        intros [H Hv]; inversion H; lia.
      * rewrite Z.geb_leb, Z.leb_gt in E.
        split; [intro H; inversion H; subst; split; [reflexivity|lia]|].
        intros [H _]; inversion H; reflexivity.
Qed.

Lemma parseInt_accept : forall s v,
  parseInt s = (v, None) <-> decimal s = Some v /\ - 2 ^ 63 <= v <= 2 ^ 63 - 1.
Proof.
  intros [|c rest] v.
  - simpl. split; [discriminate | intros [H _]; discriminate].
  - unfold parseInt, decimal.
    destruct (ascii_dec c "+") as [Hp|Hp]; destruct (ascii_dec c "-") as [Hm|Hm].
    + subst c; discriminate.
    + exact (parseInt_signed_accept false rest v).
    + exact (parseInt_signed_accept true rest v).
    + exact (parseInt_signed_accept false (String c rest) v).
Qed.

Lemma atoi_fast_path : forall s,
  ((0 <? String.length s)%nat && (String.length s <? 19)%nat) = true ->
  atoi s = match decimal s with Some v => (v, None) | None => (0, Some ErrSyntax) end.
Proof.
  intros s Hl. unfold atoi. cbv zeta. rewrite Hl.
  destruct s as [|c0 rest]; [reflexivity|].
  unfold decimal, is_sign.
  destruct (ascii_dec c0 "-") as [Hm|Hm]; destruct (ascii_dec c0 "+") as [Hp|Hp].
  - subst c0; discriminate.
  - destruct rest as [|c r]; [reflexivity|].
    destruct (atoi_fast_digits (String c r) 0); reflexivity.
  - destruct rest as [|c r]; [reflexivity|].
    destruct (atoi_fast_digits (String c r) 0); reflexivity.
  - destruct (atoi_fast_digits (String c0 rest) 0); reflexivity.
Qed.

Lemma atoi_slow_path : forall s,
  ((0 <? String.length s)%nat && (String.length s <? 19)%nat) = false ->
  atoi s = parseInt s.
Proof. intros s Hl. unfold atoi. cbv zeta. rewrite Hl. reflexivity. Qed.

End AtoiGrammar.

(** ** Further lemmas on the extraction and the cache *)
Section MoreLemmas.
Local Open Scope list_scope.
Import Structured.

Lemma bad_row_iff : forall r, bad_row r <-> exists e, row_value r = Some (Err e).
Proof.
  intro r. split; [apply row_value_bad|].
  intros [e He]. apply row_value_err in He as [s [ne [_ [H2 [Hs [Hd Ha]]]]]].
  subst s. unfold bad_row. rewrite Ha. repeat split; auto. discriminate.
Qed.

Lemma row_values_first_err : forall rows e, row_values rows = Err e ->
  exists rpre r rpost, rows = rpre ++ r :: rpost /\ row_value r = Some (Err e) /\
    Forall (fun r' => ~ bad_row r') rpre.
Proof.
  induction rows as [|r rs IH]; intros e H; simpl in H; [discriminate|].
  destruct (row_value r) as [[v|e']|] eqn:Hr.
  - destruct (row_values rs) eqn:Hrs; inversion H; subst.
    destruct (IH e eq_refl) as [rpre [r' [rpost [-> [Hv Hf]]]]].
    exists (r :: rpre), r', rpost. split; [reflexivity|]. split; [exact Hv|].
    constructor; [|exact Hf]. rewrite bad_row_iff, Hr. intros [e0 He0]; discriminate.
  - inversion H; subst. exists [], r, rs. auto.
  - destruct (IH e H) as [rpre [r' [rpost [-> [Hv Hf]]]]].
    exists (r :: rpre), r', rpost. split; [reflexivity|]. split; [exact Hv|].
    constructor; [|exact Hf]. rewrite bad_row_iff, Hr. intros [e0 He0]; discriminate.
Qed.

Lemma row_values_ok_no_bad : forall rows vs, row_values rows = Ok vs ->
  Forall (fun r => ~ bad_row r) rows.
Proof.
  intros rows vs H. apply Forall_forall. intros r Hr Hb.
  destruct (row_values_bad rows r Hr Hb) as [e He]. congruence.
Qed.

Lemma records_first_err : forall doc e, records doc = Err e ->
  exists pre b post, doc = pre ++ b :: post /\ row_values b = Err e /\
    Forall (Forall (fun r' => ~ bad_row r')) pre.
Proof.
  induction doc as [|b bs IH]; intros e H; simpl in H; [discriminate|].
  unfold block_record in H.
  destruct (row_values b) as [vs|e'] eqn:Hb.
  - destruct (records bs) eqn:Hbs; inversion H; subst.
    destruct (IH e eq_refl) as [pre [b' [post [-> [Hv Hf]]]]].
    exists (b :: pre), b', post. split; [reflexivity|]. split; [exact Hv|].
    constructor; [exact (row_values_ok_no_bad b vs Hb) | exact Hf].
  - inversion H; subst. exists [], b, bs. auto.
Qed.

Lemma records_app : forall d1 d2,
  records (d1 ++ d2) =
  match records d1 with
  | Err e => Err e
  | Ok f1 => match records d2 with Ok f2 => Ok (f1 ++ f2) | Err e => Err e end
  end.
Proof.
  induction d1 as [|b bs IH]; intro d2; simpl.
  - destruct (records d2); reflexivity.
  - rewrite IH. destruct (block_record b); [|reflexivity].
    destruct (records bs); [|reflexivity].
    destruct (records d2); reflexivity.
Qed.

Lemma row_values_skip : forall p x q, row_value x = None ->
  row_values (p ++ x :: q) = row_values (p ++ q).
Proof.
  induction p as [|r p IH]; intros x q Hx; simpl; [rewrite Hx; reflexivity|].
  rewrite IH by exact Hx. reflexivity.
Qed.

Lemma last_text_app : forall (l1 l2 : list string), l2 <> [] ->
  last_text (l1 ++ l2) = last_text l2.
Proof.
  induction l1 as [|a l1 IH]; intros l2 H; [reflexivity|].
  simpl. rewrite IH by exact H.
  destruct (l1 ++ l2) eqn:E; [destruct l1, l2; simpl in E; congruence | reflexivity].
Qed.

Lemma records_block_congr : forall pre post b1 b2,
  block_record b1 = block_record b2 ->
  records (pre ++ b1 :: post) = records (pre ++ b2 :: post).
Proof.
  induction pre as [|b pre IH]; intros post b1 b2 H; simpl.
  - rewrite H; reflexivity.
  - rewrite (IH post b1 b2 H); reflexivity.
Qed.

Lemma Part001_step_last : forall st o st',
  Part001.cacheMutex st = unlocked -> Part001.step st o = Some st' ->
  Part001.cacheMutex st' = unlocked /\
  Part001.cache st' =
    match o with
    | Part001.ORead => Part001.cache st
    | Part001.ORunSpawned f | Part001.OPeriodic f =>
        match published Part001.extract f with Some fs => Some fs | None => Part001.cache st end
    end.
Proof.
  intros st o st' Hm Hs. destruct o as [|f|f]; simpl in Hs.
  - rewrite Part001_fetchCache_free in Hs by (rewrite Hm; reflexivity).
    destruct (Part001.cache st) eqn:Hc; inversion Hs; subst; simpl; auto.
  - unfold Part001.runSpawned in Hs. destruct (Part001.pending st) as [|k]; [discriminate|].
    rewrite Part001_rebuild_unlocked in Hs by exact Hm.
    unfold published. destruct f as [msg|doc]; [|destruct (Part001.extract doc)];
      inversion Hs; subst; simpl; auto.
  - rewrite Part001_rebuild_unlocked in Hs by exact Hm.
    unfold published. destruct f as [msg|doc]; [|destruct (Part001.extract doc)];
      inversion Hs; subst; simpl; auto.
Qed.

Lemma Part001_exec_last : forall ops st st',
  Part001.cacheMutex st = unlocked -> Part001.exec st ops = Some st' ->
  Part001.cacheMutex st' = unlocked /\ Part001.cache st' = last_success ops (Part001.cache st).
Proof.
  induction ops as [|o os IH]; intros st st' Hm He; simpl in He.
  - inversion He; subst; auto.
  - destruct (Part001.step st o) as [s1|] eqn:Hs; [|discriminate].
    destruct (Part001_step_last st o s1 Hm Hs) as [Hm1 Hc1].
    destruct (IH s1 st' Hm1 He) as [Hm' Hc'].
    split; [exact Hm'|]. rewrite Hc', Hc1. reflexivity.
Qed.

(** What a run of part_000 operations leaves in the cache and timestamp. *)
Definition inv000 (acc : option (list forecast * Z)) (st0 st : Part000.state) : Prop :=
  Part000.cacheMutex st = unlocked /\
  match acc with
  | Some (fs, t) => Part000.cache st = Some fs /\ Part000.cacheTimestamp st = t
  | None => Part000.cache st = Part000.cache st0 /\
            Part000.cacheTimestamp st = Part000.cacheTimestamp st0
  end.

Lemma Part000_exec_last : forall ops acc st0 st st',
  inv000 acc st0 st -> Part000.exec st ops = Some st' ->
  inv000 (last_success000 ops acc) st0 st'.
Proof.
  induction ops as [|o os IH]; intros acc st0 st st' Hi He; simpl in He.
  - inversion He; subst; exact Hi.
  - destruct (Part000.step st o) as [s1|] eqn:Hs; [|discriminate].
    simpl. apply (IH _ st0 s1 st' ); [|exact He].
    destruct Hi as [Hm Hacc].
    destruct o as [|f now|f now]; simpl in Hs.
    + rewrite Part000_fetchCache_free in Hs by (rewrite Hm; reflexivity).
      destruct (Part000.cache st) eqn:Hc; inversion Hs; subst; split; auto;
        cbn [Part000.cache Part000.cacheTimestamp Part000.cacheMutex]; rewrite ?Hc; exact Hacc.
    + unfold Part000.runSpawned in Hs. destruct (Part000.pending st) as [|k]; [discriminate|].
      rewrite Part000_rebuild_unlocked in Hs by exact Hm.
      unfold published. destruct f as [msg|doc]; [|destruct (Part000.extract doc)];
        inversion Hs; subst; split; simpl; auto.
    + rewrite Part000_rebuild_unlocked in Hs by exact Hm.
      unfold published. destruct f as [msg|doc]; [|destruct (Part000.extract doc)];
        inversion Hs; subst; split; simpl; auto.
Qed.

Lemma Main_serve_cached : forall fetches st c,
  Main.cache st = Some c -> Main.cacheMutex st = unlocked ->
  Main.serve fetches st = Some (st, repeat (Ok c) (length fetches)).
Proof.
  induction fetches as [|f fs IH]; intros [cache m] c Hc Hm;
    simpl in Hc, Hm; subst; [reflexivity|].
  assert (Hcall : Main.fetchParseAndJsonify f (Main.mkState (Some c) unlocked)
                  = Some (Main.mkState (Some c) unlocked, Ok c)) by reflexivity.
  cbn [Main.serve]. rewrite Hcall, (IH (Main.mkState (Some c) unlocked) c eq_refl eq_refl).
  reflexivity.
Qed.

Lemma Main_extract_not_empty : forall doc e, Main.extract doc = Err e -> e <> CacheEmpty.
Proof.
  intros doc e H. rewrite extract_main_001, extract_records in H.
  destruct (records_err doc e H) as [b [r [_ [_ Hr]]]].
  apply row_value_err in Hr as [s [ne [-> _]]]. discriminate.
Qed.

Lemma Main_fetch_not_empty : forall f st st' r,
  Main.fetchParseAndJsonify f st = Some (st', r) -> r <> Err CacheEmpty.
Proof.
  intros f [c m] st' r H. unfold Main.fetchParseAndJsonify in H. cbn [Main.cache Main.cacheMutex] in H.
  destruct (Lock m) as [m1|]; [|discriminate].
  destruct c as [c|].
  - inversion H; subst; discriminate.
  - destruct f as [msg|doc]; [inversion H; subst; discriminate|].
    destruct (Main.extract doc) as [fs|e] eqn:Hx.
    + cbn [Main.cacheMutex] in H. destruct (Lock (Unlock m1)); inversion H; subst; discriminate.
    + inversion H; subst. intro He. injection He as He. exact (Main_extract_not_empty doc _ Hx He).
Qed.

Lemma Part001_refresh_outcome : forall ticks st,
  Part001.cacheMutex st = unlocked ->
  match Part001.refreshCacheJob ticks st with
  | (st', evs, Running) =>
      Forall (fun f => published Part001.extract f <> None) ticks /\
      Part001.exec st (map Part001.OPeriodic ticks) = Some st' /\
      evs = flat_map (fun _ => [Tick; LogRebuildOk]) ticks
  | (st', evs, Terminated) =>
      exists pre f post e, ticks = pre ++ f :: post /\
      Forall (fun f => published Part001.extract f <> None) pre /\
      rebuild_fails Part001.extract f = true /\
      Part001.exec st (map Part001.OPeriodic pre) = Some st' /\
      Part001.rebuildCache f st' = Some (st', Some e) /\
      evs = flat_map (fun _ => [Tick; LogRebuildOk]) pre ++ [Tick; LogFatal e]
  | (_, _, Blocked) => False
  end.
Proof.
  induction ticks as [|f ticks IH]; intros st Hm.
  - simpl. auto.
  - cbn [Part001.refreshCacheJob].
    pose proof (Part001_rebuild_unlocked f st Hm) as Hr. rewrite Hr.
    destruct f as [msg|doc].
    + exists [], (FetchFail msg), ticks, (FetchError msg). simpl.
      rewrite Hr. repeat split; auto.
    + destruct (Part001.extract doc) as [fs|e] eqn:Hx.
      * specialize (IH (Part001.mkState (Some fs) unlocked (Part001.pending st)) eq_refl).
        destruct (Part001.refreshCacheJob ticks _) as [[st'' evs] s].
        assert (Hp : published Part001.extract (Fetched doc) <> None)
          by (simpl; rewrite Hx; discriminate).
        assert (Hs : Part001.step st (Part001.OPeriodic (Fetched doc))
                     = Some (Part001.mkState (Some fs) unlocked (Part001.pending st)))
          by (simpl; rewrite Hr; reflexivity).
        destruct s.
        -- destruct IH as [Hf [He Hev]]. repeat split.
           ++ constructor; assumption.
           ++ cbn [map Part001.exec]. rewrite Hs. exact He.
           ++ simpl. rewrite Hev. reflexivity.
        -- destruct IH as [pre [f' [post [e [Ht [Hf [Hfail [He [Hr' Hev]]]]]]]]].
           exists (Fetched doc :: pre), f', post, e.
           split; [simpl; rewrite Ht; reflexivity|].
           split; [constructor; assumption|].
           split; [exact Hfail|].
           split; [cbn [map Part001.exec]; rewrite Hs; exact He|].
           split; [exact Hr'|]. simpl. rewrite Hev. reflexivity.
        -- exact IH.
      * exists [], (Fetched doc), ticks, e. simpl. rewrite Hr; simpl; rewrite ?Hx; repeat split; auto.
Qed.

Lemma Part000_refresh_outcome : forall iters st,
  Part000.cacheMutex st = unlocked ->
  match Part000.refreshCacheJob iters st with
  | (st', evs, Running) =>
      Forall (fun i => published Part000.extract (fst i) <> None) iters /\
      Part000.exec st (map (fun i => Part000.OPeriodic (fst i) (snd i)) iters) = Some st' /\
      evs = flat_map (fun _ => [LogRebuildOk; Tick]) iters
  | (st', evs, Terminated) =>
      exists pre f now post e, iters = pre ++ (f, now) :: post /\
      Forall (fun i => published Part000.extract (fst i) <> None) pre /\
      rebuild_fails Part000.extract f = true /\
      Part000.exec st (map (fun i => Part000.OPeriodic (fst i) (snd i)) pre) = Some st' /\
      Part000.rebuildCache f now st' = Some (st', Some e) /\
      evs = flat_map (fun _ => [LogRebuildOk; Tick]) pre ++ [LogFatal e]
  | (_, _, Blocked) => False
  end.
Proof.
  induction iters as [|[f now] iters IH]; intros st Hm.
  - simpl. auto.
  - cbn [Part000.refreshCacheJob].
    pose proof (Part000_rebuild_unlocked f now st Hm) as Hr. rewrite Hr.
    destruct f as [msg|doc].
    + exists [], (FetchFail msg), now, iters, (FetchError msg). simpl.
      rewrite Hr. repeat split; auto.
    + destruct (Part000.extract doc) as [fs|e] eqn:Hx.
      * specialize (IH (Part000.mkState (Some fs) now unlocked (Part000.pending st)) eq_refl).
        destruct (Part000.refreshCacheJob iters _) as [[st'' evs] s].
        assert (Hp : published Part000.extract (fst (Fetched doc, now)) <> None)
          by (simpl; rewrite Hx; discriminate).
        assert (Hs : Part000.step st (Part000.OPeriodic (Fetched doc) now)
                     = Some (Part000.mkState (Some fs) now unlocked (Part000.pending st)))
          by (simpl; rewrite Hr; reflexivity).
        destruct s.
        -- destruct IH as [Hf [He Hev]]. repeat split.
           ++ constructor; assumption.
           ++ cbn [map Part000.exec fst snd]. rewrite Hs. exact He.
           ++ simpl. rewrite Hev. reflexivity.
        -- destruct IH as [pre [f' [now' [post [e [Ht [Hf [Hfail [He [Hr' Hev]]]]]]]]]].
           exists ((Fetched doc, now) :: pre), f', now', post, e.
           split; [simpl; rewrite Ht; reflexivity|].
           split; [constructor; assumption|].
           split; [exact Hfail|].
           split; [cbn [map Part000.exec fst snd]; rewrite Hs; exact He|].
           split; [exact Hr'|]. simpl. rewrite Hev. reflexivity.
        -- exact IH.
      * exists [], (Fetched doc), now, iters, e. simpl. rewrite Hr; simpl; rewrite ?Hx; repeat split; auto.
Qed.

End MoreLemmas.

(** * Claims *)
Section Claims.
Local Open Scope list_scope.
Import Structured.

(** C1: when some measurement row of some block has a value text that is
    neither "-" nor accepted by [strconv.Atoi], the extraction of every
    variant fails with a [ParseError] carrying an offending value text of the
    document (no list of forecasts at all), and a rebuild over that document
    returns the error and leaves the cache state exactly as it was. *)
Theorem extract_parse_error_atomic : forall doc b r,
  In b doc -> In r b -> bad_row r ->
  exists s ne,
    Part001.extract doc = Err (ParseError s ne) /\
    Part000.extract doc = Err (ParseError s ne) /\
    Main.extract doc = Err (ParseError s ne) /\
    s <> "-" /\ snd (atoi s) = Some ne /\
    (exists b' r', In b' doc /\ In r' b' /\ length (tr_tds r') = 2%nat /\
                   last_text (tr_tds r') = s) /\
    (forall st, Part001.cacheMutex st = unlocked ->
       Part001.rebuildCache (Fetched doc) st = Some (st, Some (ParseError s ne))).
Proof.
  intros doc b r Hb Hr Hbad.
  destruct (records_bad doc b r Hb Hr Hbad) as [e He].
  destruct (records_err doc e He) as [b' [r' [Hb' [Hr' Hv]]]].
  destruct (row_value_err r' e Hv) as [s [ne [-> [H2 [Hs [Hd Ha]]]]]].
  assert (Hx : Part001.extract doc = Err (ParseError s ne))
    by (rewrite extract_records; exact He).
  exists s, ne.
  split; [exact Hx|]. split; [exact (eq_trans (extract_000_001 doc) Hx)|].
  split; [exact (eq_trans (extract_main_001 doc) Hx)|].
  repeat split; auto.
  - exists b', r'; auto.
  - intros st Hm. rewrite (Part001_rebuild_unlocked _ st Hm), Hx. reflexivity.
Qed.

Lemma extract_parse_error_atomic_witness :
  exists s ne,
    Part001.extract [[mkTr "Aarhus" ["Aarhus"]; mkTr "Birk12" ["Birk"; "12"]];
                     [mkTr "Odense" []; mkTr "Grxs" ["Grxs"; "abc"]]]
      = Err (ParseError s ne).
Proof.
  destruct (extract_parse_error_atomic
              [[mkTr "Aarhus" ["Aarhus"]; mkTr "Birk12" ["Birk"; "12"]];
               [mkTr "Odense" []; mkTr "Grxs" ["Grxs"; "abc"]]]
              [mkTr "Odense" []; mkTr "Grxs" ["Grxs"; "abc"]]
              (mkTr "Grxs" ["Grxs"; "abc"]))
    as [s [ne [H _]]].
  - simpl; auto.
  - simpl; auto.
  - unfold bad_row; simpl; split; [reflexivity|]; split; [discriminate|].
    vm_compute; discriminate.
  - exists s, ne; exact H.
Defined.

(** C2 (as amended): in the [fetchCache] variants (part_000, part_001), once
    the read lock is obtained, an empty cache makes the reader start one
    asynchronous rebuild (counted in [pending], not yet run: the cache is
    still empty) and return [CacheEmpty] at once, with the lock released;
    a present snapshot is returned with the state unchanged. main.go's
    [fetchParseAndJsonify] never fails with [CacheEmpty]: on a miss it
    fetches and extracts synchronously, returns that result or error, and
    stores a successful result; a present snapshot is returned as is. *)
Theorem fetchCache_miss_async :
  (forall st, writer (Part001.cacheMutex st) = false ->
     (Part001.cache st = None ->
        Part001.fetchCache st =
        Some (Part001.mkState None (Part001.cacheMutex st) (S (Part001.pending st)),
              Err CacheEmpty)) /\
     (forall c, Part001.cache st = Some c -> Part001.fetchCache st = Some (st, Ok c))) /\
  (forall st, writer (Part000.cacheMutex st) = false ->
     (Part000.cache st = None ->
        Part000.fetchCache st =
        Some (Part000.mkState None (Part000.cacheTimestamp st) (Part000.cacheMutex st)
                (S (Part000.pending st)), Err CacheEmpty)) /\
     (forall c, Part000.cache st = Some c -> Part000.fetchCache st = Some (st, Ok c))) /\
  (forall f st, Main.cacheMutex st = unlocked ->
     (Main.cache st = None ->
        Main.fetchParseAndJsonify f st =
        Some (match published Main.extract f with
              | Some fs => Main.mkState (Some fs) unlocked
              | None => Main.mkState None unlocked
              end,
              match f with
              | FetchFail msg => Err (FetchError msg)
              | Fetched doc => Main.extract doc
              end)) /\
     (forall c, Main.cache st = Some c -> Main.fetchParseAndJsonify f st = Some (st, Ok c))) /\
  (forall f st st' r, Main.fetchParseAndJsonify f st = Some (st', r) -> r <> Err CacheEmpty).
Proof.
  split; [|split; [|split]].
  - intros st Hw; split; [intro Hc | intros c Hc];
      rewrite Part001_fetchCache_free by exact Hw; rewrite Hc; reflexivity.
  - intros st Hw; split; [intro Hc | intros c Hc];
      rewrite Part000_fetchCache_free by exact Hw; rewrite Hc; reflexivity.
  - intros f [c m] Hm; cbn [Main.cache Main.cacheMutex] in *; subst m.
    split; [intro Hc | intros c' Hc]; subst c.
    + unfold Main.fetchParseAndJsonify, published. cbn [Main.cache Main.cacheMutex].
      destruct f as [msg|doc]; [reflexivity|].
      destruct (Main.extract doc); reflexivity.
    + reflexivity.
  - exact Main_fetch_not_empty.
Qed.

Lemma fetchCache_miss_async_witness :
  Part001.fetchCache Part001.init =
    Some (Part001.mkState None unlocked 1, Err CacheEmpty) /\
  Part000.fetchCache Part000.init =
    Some (Part000.mkState None 0 unlocked 1, Err CacheEmpty) /\
  Main.fetchParseAndJsonify (FetchFail "timeout") Main.init =
    Some (Main.init, Err (FetchError "timeout")) /\
  Main.fetchParseAndJsonify (Fetched [[mkTr "El" ["El"; "-"]]]) Main.init =
    Some (Main.mkState (Some [mkForecast "El" "El" [mkForecastValue "El" 0]]) unlocked,
          Ok [mkForecast "El" "El" [mkForecastValue "El" 0]]).
Proof.
  destruct fetchCache_miss_async as [H1 [H0 [Hm _]]]. split; [|split; [|split]].
  - apply (proj1 (H1 Part001.init eq_refl)); reflexivity.
  - apply (proj1 (H0 Part000.init eq_refl)); reflexivity.
  - exact (proj1 (Hm (FetchFail "timeout") Main.init eq_refl) eq_refl).
  - exact (proj1 (Hm (Fetched [[mkTr "El" ["El"; "-"]]]) Main.init eq_refl) eq_refl).
Defined.

(** C2 counterexample: the reader of main.go, [fetchParseAndJsonify], finds
    the cache empty at start and does not fail with [CacheEmpty]: it fetches
    and extracts synchronously and returns the result. *)
Lemma fetchParseAndJsonify_miss_blocks :
  Main.cache Main.init = None /\
  exists st' r, Main.fetchParseAndJsonify (Fetched []) Main.init = Some (st', r) /\
                r = Ok [] /\ r <> Err CacheEmpty.
Proof.
  split; [reflexivity|]. do 2 eexists. split; [reflexivity|].
  split; [reflexivity|discriminate].
Qed.

(** C3: in both [rebuildCache] variants, from a free mutex, a rebuild whose
    fetch or extraction fails returns that error (the fetch message or the
    extraction's [ParseError]) and leaves the whole state as it was: the
    cache, the timestamp (part_000) and the mutex, which is released again.
    A following read then returns the previous snapshot, or [CacheEmpty]
    when there was none. *)
Theorem rebuild_failure_preserves_cache :
  (forall st f, Part001.cacheMutex st = unlocked ->
     rebuild_fails Part001.extract f = true ->
     exists e,
       Part001.rebuildCache f st = Some (st, Some e) /\
       (match f with
        | FetchFail msg => e = FetchError msg
        | Fetched doc => Part001.extract doc = Err e
        end) /\
       Part001.fetchCache st =
       Some (match Part001.cache st with
             | Some c => (st, Ok c)
             | None => (Part001.mkState None unlocked (S (Part001.pending st)), Err CacheEmpty)
             end)) /\
  (forall st f now, Part000.cacheMutex st = unlocked ->
     rebuild_fails Part000.extract f = true ->
     exists e,
       Part000.rebuildCache f now st = Some (st, Some e) /\
       (match f with
        | FetchFail msg => e = FetchError msg
        | Fetched doc => Part000.extract doc = Err e
        end) /\
       Part000.fetchCache st =
       Some (match Part000.cache st with
             | Some c => (st, Ok c)
             | None => (Part000.mkState None (Part000.cacheTimestamp st) unlocked
                          (S (Part000.pending st)), Err CacheEmpty)
             end)).
Proof.
  split.
  - intros st f Hm Hf.
    rewrite (Part001_fetchCache_free st) by (rewrite Hm; reflexivity).
    rewrite (Part001_rebuild_unlocked f st Hm).
    destruct f as [msg|doc]; simpl in Hf.
    + exists (FetchError msg). rewrite Hm. destruct (Part001.cache st); auto.
    + destruct (Part001.extract doc) as [fs|e]; [discriminate|].
      exists e. rewrite Hm. destruct (Part001.cache st); auto.
  - intros st f now Hm Hf.
    rewrite (Part000_fetchCache_free st) by (rewrite Hm; reflexivity).
    rewrite (Part000_rebuild_unlocked f now st Hm).
    destruct f as [msg|doc]; simpl in Hf.
    + exists (FetchError msg). rewrite Hm. destruct (Part000.cache st); auto.
    + destruct (Part000.extract doc) as [fs|e]; [discriminate|].
      exists e. rewrite Hm. destruct (Part000.cache st); auto.
Qed.

Lemma rebuild_failure_preserves_cache_witness :
  Part001.rebuildCache (Fetched [[mkTr "El" ["El"; "abc"]]])
    (Part001.mkState (Some []) unlocked 0)
  = Some (Part001.mkState (Some []) unlocked 0, Some (ParseError "abc" ErrSyntax)) /\
  Part000.rebuildCache (FetchFail "timeout") 7 (Part000.mkState (Some []) 3 unlocked 0)
  = Some (Part000.mkState (Some []) 3 unlocked 0, Some (FetchError "timeout")).
Proof.
  destruct rebuild_failure_preserves_cache as [H1 H0]. split.
  - destruct (H1 (Part001.mkState (Some []) unlocked 0)
                 (Fetched [[mkTr "El" ["El"; "abc"]]]) eq_refl eq_refl)
      as [e [He [Hx _]]].
    vm_compute in Hx. inversion Hx; subst. exact He.
  - destruct (H0 (Part000.mkState (Some []) 3 unlocked 0) (FetchFail "timeout") 7
                 eq_refl eq_refl) as [e [He [Hx _]]].
    subst. exact He.
Defined.

(** C4: every measurement of a successful extraction comes, in order, from
    a row with exactly two cells [a; s]: its name is [a], its value is 0 when
    [s] is "-" and otherwise the [strconv.Atoi] value of [s]; Scenario A
    yields the single record ("Aarhus", last row text, [Birk 12; El 0]). *)
Theorem measurement_row_value :
  (forall doc fs, Part001.extract doc = Ok fs ->
     Forall2 (fun b f =>
       Forall2 (fun r v => exists a s, tr_tds r = [a; s] /\ Name v = a /\
                  (s = "-" -> Value v = 0) /\ (s <> "-" -> atoi s = (Value v, None)))
         (filter two_cells b) (Values f)) doc fs) /\
  Part001.extract scenario_A =
    Ok [mkForecast "Aarhus" "Lav" [mkForecastValue "Birk" 12; mkForecastValue "El" 0]].
Proof.
  split; [|reflexivity].
  intros doc fs H. rewrite extract_records in H.
  apply records_ok in H.
  induction H as [|b f bs fs' [_ [_ Hb]] _ IH]; constructor; [|exact IH].
  apply row_values_ok in Hb.
  induction Hb as [|r v rs vs Hrv _ IHr]; constructor; [|exact IHr].
  exact (row_value_ok r v Hrv).
Qed.

Lemma measurement_row_value_witness :
  Forall2 (fun b f =>
    Forall2 (fun r v => exists a s, tr_tds r = [a; s] /\ Name v = a /\
               (s = "-" -> Value v = 0) /\ (s <> "-" -> atoi s = (Value v, None)))
      (filter two_cells b) (Values f)) scenario_A
    [mkForecast "Aarhus" "Lav" [mkForecastValue "Birk" 12; mkForecastValue "El" 0]].
Proof.
  destruct measurement_row_value as [H HA]. exact (H scenario_A _ HA).
Defined.

(** C5: on a valid document (every two-cell row's value text is "-" or
    accepted by [strconv.Atoi]) the extraction succeeds with exactly one
    record per block, in document order, each with as many measurements as
    its block has two-cell rows, taken in order from those rows. *)
Theorem extract_valid_shape : forall doc, valid_document doc ->
  exists fs, Part001.extract doc = Ok fs /\ length fs = length doc /\
    Forall2 (fun b f =>
      CityName f = first_text (map tr_text b) /\
      ForecastText f = last_text (map tr_text b) /\
      length (Values f) = length (filter two_cells b) /\
      Forall2 (fun r v => Name v = first_text (tr_tds r))
        (filter two_cells b) (Values f)) doc fs.
Proof.
  intros doc Hv.
  destruct (records_valid doc Hv) as [fs Hfs].
  exists fs. rewrite extract_records. split; [exact Hfs|].
  apply records_ok in Hfs.
  split; [symmetry; exact (Forall2_length Hfs)|].
  clear Hv. induction Hfs as [|b f bs fs' [Hc [Ht Hb]] _ IH]; constructor; [|exact IH].
  apply row_values_ok in Hb.
  split; [exact Hc|]. split; [exact Ht|].
  split; [symmetry; exact (Forall2_length Hb)|].
  clear -Hb. induction Hb as [|r v rs vs Hrv _ IHr]; constructor; [|exact IHr].
  destruct (row_value_ok r v Hrv) as [a [s [Htd [Hn _]]]]. rewrite Htd; exact Hn.
Qed.

Lemma extract_valid_shape_witness :
  exists fs, Part001.extract scenario_A = Ok fs /\ length fs = 1%nat.
Proof.
  destruct (extract_valid_shape scenario_A) as [fs [H [Hl _]]].
  - intros b r Hb Hr H2. simpl in Hb.
    destruct Hb as [<-|[]]. simpl in Hr.
    destruct Hr as [<-|[<-|[<-|[<-|[]]]]]; simpl in *; try discriminate;
      [right; reflexivity | left; reflexivity].
  - exists fs; split; [exact H|exact Hl].
Defined.

(** C6: the city name of each extracted record is the text of its block's
    first row and the forecast text that of its last row; a document whose
    blocks have no two-cell row always extracts, one record per block with
    no measurements; an empty block gives "" for both texts. *)
Theorem record_texts_permissive :
  (forall doc fs, Part001.extract doc = Ok fs ->
     Forall2 (fun b f =>
       CityName f = match b with [] => "" | r :: _ => tr_text r end /\
       ForecastText f = last_text (map tr_text b)) doc fs) /\
  (forall doc, Forall (fun b => filter two_cells b = []) doc ->
     Part001.extract doc =
     Ok (map (fun b => mkForecast (first_text (map tr_text b))
                                  (last_text (map tr_text b)) []) doc)) /\
  Part001.extract [[]] = Ok [mkForecast "" "" []].
Proof.
  split; [|split; [|reflexivity]].
  - intros doc fs H. rewrite extract_records in H. apply records_ok in H.
    induction H as [|b f bs fs' [Hc [Ht _]] _ IH]; constructor; [|exact IH].
    split; [|exact Ht]. rewrite Hc. destruct b; reflexivity.
  - intros doc H. rewrite extract_records.
    induction H as [|b bs Hb _ IH]; [reflexivity|].
    simpl. unfold block_record. rewrite (row_values_no_rows b Hb), IH. reflexivity.
Qed.

Lemma record_texts_permissive_witness :
  Part001.extract [[]; [mkTr "Aarhus" ["Aarhus"]; mkTr "Lav" []]] =
  Ok [mkForecast "" "" []; mkForecast "Aarhus" "Lav" []].
Proof.
  destruct record_texts_permissive as [_ [H _]].
  apply H. repeat constructor.
Defined.

(** C7 counterexample: both refresh jobs (part_000 rebuilding first, part_001
    waiting for the first tick) stop the process at the first failed
    rebuild, even when the next fetch would have succeeded. *)
Lemma refresh_jobs_both_fatal :
  Part000.refreshCacheJob [(FetchFail "timeout", 0); (Fetched [], 600)] Part000.init
    = (Part000.init, [LogFatal (FetchError "timeout")], Terminated) /\
  Part001.refreshCacheJob [FetchFail "timeout"; Fetched []] Part001.init
    = (Part001.init, [Tick; LogFatal (FetchError "timeout")], Terminated).
Proof. split; reflexivity. Qed.

(** C7 (as amended): from a free mutex, neither refresh job logs a failure
    and continues: each ends in [Terminated] exactly when one of its
    rebuilds fails, and then stops at the first failing rebuild, after
    logging it with [log.Fatalln], in the state left by the successful
    rebuilds before it; otherwise it keeps [Running]. The timing differs:
    part_001 waits for a tick before each rebuild (events [Tick] then the
    rebuild's log line), while part_000 rebuilds at once and waits for the
    tick after each successful rebuild (the log line, then [Tick]); a
    failure in part_000 is logged before any wait. *)
Theorem refresh_jobs_fatal_policy :
  (forall ticks st, Part001.cacheMutex st = unlocked ->
     let s := snd (Part001.refreshCacheJob ticks st) in
     (s = Terminated <-> existsb (rebuild_fails Part001.extract) ticks = true) /\
     (s = Running <-> existsb (rebuild_fails Part001.extract) ticks = false)) /\
  (forall iters st, Part000.cacheMutex st = unlocked ->
     let s := snd (Part000.refreshCacheJob iters st) in
     (s = Terminated <->
        existsb (fun fi => rebuild_fails Part000.extract (fst fi)) iters = true) /\
     (s = Running <->
        existsb (fun fi => rebuild_fails Part000.extract (fst fi)) iters = false)) /\
  (forall ticks st, Part001.cacheMutex st = unlocked ->
     match Part001.refreshCacheJob ticks st with
     | (st', evs, Running) =>
         Forall (fun f => published Part001.extract f <> None) ticks /\
         Part001.exec st (map Part001.OPeriodic ticks) = Some st' /\
         evs = flat_map (fun _ => [Tick; LogRebuildOk]) ticks
     | (st', evs, Terminated) =>
         exists pre f post e, ticks = pre ++ f :: post /\
         Forall (fun f => published Part001.extract f <> None) pre /\
         rebuild_fails Part001.extract f = true /\
         Part001.exec st (map Part001.OPeriodic pre) = Some st' /\
         Part001.rebuildCache f st' = Some (st', Some e) /\
         evs = flat_map (fun _ => [Tick; LogRebuildOk]) pre ++ [Tick; LogFatal e]
     | (_, _, Blocked) => False
     end) /\
  (forall iters st, Part000.cacheMutex st = unlocked ->
     match Part000.refreshCacheJob iters st with
     | (st', evs, Running) =>
         Forall (fun i => published Part000.extract (fst i) <> None) iters /\
         Part000.exec st (map (fun i => Part000.OPeriodic (fst i) (snd i)) iters) = Some st' /\
         evs = flat_map (fun _ => [LogRebuildOk; Tick]) iters
     | (st', evs, Terminated) =>
         exists pre f now post e, iters = pre ++ (f, now) :: post /\
         Forall (fun i => published Part000.extract (fst i) <> None) pre /\
         rebuild_fails Part000.extract f = true /\
         Part000.exec st (map (fun i => Part000.OPeriodic (fst i) (snd i)) pre) = Some st' /\
         Part000.rebuildCache f now st' = Some (st', Some e) /\
         evs = flat_map (fun _ => [LogRebuildOk; Tick]) pre ++ [LogFatal e]
     | (_, _, Blocked) => False
     end).
Proof.
  split; [|split; [|split]].
  - induction ticks as [|f rest IH]; intros st Hm; simpl.
    + intuition discriminate.
    + rewrite (Part001_rebuild_unlocked f st Hm).
      destruct f as [msg|doc]; simpl; [intuition discriminate|].
      destruct (Part001.extract doc) as [fs|e]; simpl; [|intuition discriminate].
      specialize (IH (Part001.mkState (Some fs) unlocked (Part001.pending st)) eq_refl).
      simpl in IH.
      destruct (Part001.refreshCacheJob rest _) as [[st'' evs] s]. exact IH.
  - induction iters as [|[f now] rest IH]; intros st Hm; simpl.
    + intuition discriminate.
    + rewrite (Part000_rebuild_unlocked f now st Hm).
      destruct f as [msg|doc]; simpl; [intuition discriminate|].
      destruct (Part000.extract doc) as [fs|e]; simpl; [|intuition discriminate].
      specialize (IH (Part000.mkState (Some fs) now unlocked (Part000.pending st)) eq_refl).
      simpl in IH.
      destruct (Part000.refreshCacheJob rest _) as [[st'' evs] s]. exact IH.
  - exact Part001_refresh_outcome.
  - exact Part000_refresh_outcome.
Qed.

Lemma refresh_jobs_fatal_policy_witness :
  snd (Part001.refreshCacheJob [Fetched []; FetchFail "timeout"; Fetched []] Part001.init)
    = Terminated /\
  snd (Part000.refreshCacheJob [(Fetched [], 0); (Fetched [], 600)] Part000.init)
    = Running /\
  match Part001.refreshCacheJob [Fetched []; FetchFail "timeout"; Fetched []] Part001.init with
  | (st', evs, Running) =>
      Forall (fun f => published Part001.extract f <> None)
        [Fetched []; FetchFail "timeout"; Fetched []] /\
      Part001.exec Part001.init
        (map Part001.OPeriodic [Fetched []; FetchFail "timeout"; Fetched []]) = Some st' /\
      evs = flat_map (fun _ => [Tick; LogRebuildOk]) [Fetched []; FetchFail "timeout"; Fetched []]
  | (st', evs, Terminated) =>
      exists pre f post e, [Fetched []; FetchFail "timeout"; Fetched []] = pre ++ f :: post /\
      Forall (fun f => published Part001.extract f <> None) pre /\
      rebuild_fails Part001.extract f = true /\
      Part001.exec Part001.init (map Part001.OPeriodic pre) = Some st' /\
      Part001.rebuildCache f st' = Some (st', Some e) /\
      evs = flat_map (fun _ => [Tick; LogRebuildOk]) pre ++ [Tick; LogFatal e]
  | (_, _, Blocked) => False
  end /\
  match Part000.refreshCacheJob [(Fetched [], 0); (FetchFail "timeout", 600)] Part000.init with
  | (st', evs, Running) =>
      Forall (fun i => published Part000.extract (fst i) <> None)
        [(Fetched [], 0); (FetchFail "timeout", 600)] /\
      Part000.exec Part000.init (map (fun i => Part000.OPeriodic (fst i) (snd i))
                                   [(Fetched [], 0); (FetchFail "timeout", 600)]) = Some st' /\
      evs = flat_map (fun _ => [LogRebuildOk; Tick]) [(Fetched [], 0); (FetchFail "timeout", 600)]
  | (st', evs, Terminated) =>
      exists pre f now post e,
      [(Fetched [], 0); (FetchFail "timeout", 600)] = pre ++ (f, now) :: post /\
      Forall (fun i => published Part000.extract (fst i) <> None) pre /\
      rebuild_fails Part000.extract f = true /\
      Part000.exec Part000.init (map (fun i => Part000.OPeriodic (fst i) (snd i)) pre) = Some st' /\
      Part000.rebuildCache f now st' = Some (st', Some e) /\
      evs = flat_map (fun _ => [LogRebuildOk; Tick]) pre ++ [LogFatal e]
  | (_, _, Blocked) => False
  end.
Proof.
  destruct refresh_jobs_fatal_policy as [H1 [H0 [G1 G0]]]. split; [|split; [|split]].
  - apply (proj1 (H1 [Fetched []; FetchFail "timeout"; Fetched []] Part001.init eq_refl)).
    reflexivity.
  - apply (proj2 (H0 [(Fetched [], 0); (Fetched [], 600)] Part000.init eq_refl)).
    reflexivity.
  - exact (G1 [Fetched []; FetchFail "timeout"; Fetched []] Part001.init eq_refl).
  - exact (G0 [(Fetched [], 0); (FetchFail "timeout", 600)] Part000.init eq_refl).
Defined.

(** C8 counterexample: a value text "-5" passes [strconv.Atoi], so a
    successful extraction can hold a negative measurement value. *)
Lemma extract_negative_value :
  Part001.extract [[mkTr "Birk-5" ["Birk"; "-5"]]] =
    Ok [mkForecast "Birk-5" "Birk-5" [mkForecastValue "Birk" (-5)]] /\
  -5 < 0.
Proof. split; [reflexivity | lia]. Qed.

(** C8 (as amended): every measurement value [v] of a successful extraction
    comes from its own two-cell row [[Name v; s]] of the block of its
    record: its value is 0 when [s] is the "-" placeholder and otherwise the
    [strconv.Atoi] value of [s]; it lies in the [int64] range, and it is
    negative only when [s] starts with '-' (no non-negativity check is
    made). *)
Theorem extract_value_range : forall doc fs, Part001.extract doc = Ok fs ->
  forall f v, In f fs -> In v (Values f) ->
    exists b r s, In b doc /\ row_values b = Ok (Values f) /\ In r b /\
      tr_tds r = [Name v; s] /\
      (s = "-" -> Value v = 0) /\
      (s <> "-" -> atoi s = (Value v, None)) /\
      - 2 ^ 63 <= Value v <= 2 ^ 63 - 1 /\
      (Value v < 0 -> exists rest, s = String "-" rest).
Proof.
  intros doc fs H f v Hf Hv.
  rewrite extract_records in H. apply records_ok in H.
  destruct (Forall2_in_r _ _ _ f H Hf) as [b [Hb [_ [_ Hrv]]]].
  pose proof Hrv as Hvals. apply row_values_ok in Hrv.
  destruct (Forall2_in_r _ _ _ v Hrv Hv) as [r [Hr Hval]].
  apply filter_In in Hr as [Hr _].
  destruct (row_value_ok r v Hval) as [a [s [Htd [Hn [H0 H1]]]]].
  exists b, r, s. rewrite Hn.
  split; [exact Hb|]. split; [exact Hvals|]. split; [exact Hr|].
  split; [exact Htd|]. split; [exact H0|]. split; [exact H1|].
  destruct (string_dec s "-") as [Hd|Hd].
  - rewrite (H0 Hd). split; [lia | intro; lia].
  - pose proof (H1 Hd) as Ha.
    destruct (atoi_accepted s) as [Hrange Hneg]; [rewrite Ha; reflexivity|].
    rewrite Ha in Hrange, Hneg; simpl in Hrange, Hneg.
    split; [exact Hrange|].
    intro Hlt. destruct (Hneg Hlt) as [rest ->]. exists rest; reflexivity.
Qed.

Lemma extract_value_range_witness :
  exists b r s, In b [[mkTr "Birk-5" ["Birk"; "-5"]]] /\
    row_values b = Ok [mkForecastValue "Birk" (-5)] /\ In r b /\
    tr_tds r = ["Birk"; s] /\
    (s = "-" -> -5 = 0) /\
    (s <> "-" -> atoi s = (-5, None)) /\
    - 2 ^ 63 <= -5 <= 2 ^ 63 - 1 /\
    (-5 < 0 -> exists rest, s = String "-" rest).
Proof.
  exact (extract_value_range [[mkTr "Birk-5" ["Birk"; "-5"]]]
           [mkForecast "Birk-5" "Birk-5" [mkForecastValue "Birk" (-5)]]
           eq_refl _ (mkForecastValue "Birk" (-5))
           (or_introl eq_refl) (or_introl eq_refl)).
Defined.

(** C9: a successful rebuild of a document with no matching block publishes
    the empty, non-nil list, after which any number of reads return it; and
    from process start, after any run of reads and rebuilds, a read fails
    with [CacheEmpty] exactly when none of the rebuilds succeeded. *)
Theorem cache_empty_iff_no_success :
  (forall st, Part001.cacheMutex st = unlocked ->
     let st' := Part001.mkState (Some []) unlocked (Part001.pending st) in
     Part001.rebuildCache (Fetched []) st = Some (st', None) /\
     forall n, Part001.exec st' (repeat Part001.ORead n) = Some st' /\
               Part001.fetchCache st' = Some (st', Ok [])) /\
  (forall ops st, Part001.exec Part001.init ops = Some st ->
     ((exists st', Part001.fetchCache st = Some (st', Err CacheEmpty)) <->
      existsb succeeded ops = false)).
Proof.
  split.
  - intros st Hm st'.
    split; [rewrite (Part001_rebuild_unlocked _ st Hm); reflexivity|].
    intro n. split; [|reflexivity].
    induction n as [|n IH]; [reflexivity|]. exact IH.
  - intros ops st He.
    destruct (Part001_exec_inv ops Part001.init st eq_refl He) as [Hm Hc].
    rewrite Part001_fetchCache_free by (rewrite Hm; reflexivity).
    simpl in Hc.
    destruct (Part001.cache st) as [c|].
    + split; [intros [st' H]; discriminate|].
      intro Hs. discriminate (proj2 Hc (conj eq_refl Hs)).
    + split; [intros _; apply (proj1 Hc eq_refl) | intros _; eauto].
Qed.

Lemma cache_empty_iff_no_success_witness :
  ((exists st', Part001.fetchCache (Part001.mkState (Some []) unlocked 0)
                = Some (st', Err CacheEmpty)) <->
   existsb succeeded [Part001.ORead; Part001.ORunSpawned (Fetched [])] = false).
Proof.
  exact (proj2 cache_empty_iff_no_success
           [Part001.ORead; Part001.ORunSpawned (Fetched [])]
           (Part001.mkState (Some []) unlocked 0) eq_refl).
Defined.

(** C10: the three copies of the extraction (main.go, part_000, part_001)
    compute the same result on every document, and from a cold start the
    main.go reader and both [rebuildCache]s report that same result. *)
Theorem extraction_variants_agree : forall doc now,
  Main.extract doc = Part001.extract doc /\
  Part000.extract doc = Part001.extract doc /\
  option_map snd (Main.fetchParseAndJsonify (Fetched doc) Main.init)
    = Some (Part001.extract doc) /\
  option_map (fun p => (Part000.cache (fst p), snd p))
    (Part000.rebuildCache (Fetched doc) now Part000.init)
  = option_map (fun p => (Part001.cache (fst p), snd p))
      (Part001.rebuildCache (Fetched doc) Part001.init).
Proof.
  intros doc now.
  split; [exact (extract_main_001 doc)|].
  split; [exact (extract_000_001 doc)|].
  rewrite (Part000_rebuild_unlocked _ now Part000.init eq_refl),
          (Part001_rebuild_unlocked _ Part001.init eq_refl).
  unfold Main.fetchParseAndJsonify. simpl.
  pose proof (extract_main_001 doc) as Hm. pose proof (extract_000_001 doc) as H0.
  destruct (Part001.extract doc) as [fs|e];
    rewrite Hm; rewrite H0; split; reflexivity.
Qed.

End Claims.


(** * Further properties of the code *)
Section Extras.
Local Open Scope list_scope.
Import Structured.

(** X1: [strconv.Atoi] accepts exactly the strings made of an optional '+'
    or '-' and at least one decimal digit whose value lies in the [int64]
    range, and returns that value (so "+12" and "007" are accepted, while
    " 12", "1_000", "-" and "" are not). *)
Theorem atoi_accepts_iff : forall s v,
  atoi s = (v, None) <-> decimal s = Some v /\ - 2 ^ 63 <= v <= 2 ^ 63 - 1.
Proof.
  intros s v.
  destruct ((0 <? String.length s)%nat && (String.length s <? 19)%nat) eqn:Hl.
  - pose proof (atoi_accepted s) as A.
    rewrite (atoi_fast_path s Hl) in *.
    destruct (decimal s) as [v'|] eqn:Hd.
    + destruct (A eq_refl) as [R _]. simpl in R.
      split; [intro H; inversion H; subst; auto | intros [H _]; inversion H; reflexivity].
    + split; [discriminate | intros [H _]; discriminate].
  - rewrite (atoi_slow_path s Hl). apply parseInt_accept.
Qed.

(** X2: a failed extraction always reports a [ParseError], and it is the one
    of the first bad measurement row in document order: no row of an earlier
    block, and no earlier row of the same block, is bad. *)
Theorem extract_first_error : forall doc e, Part001.extract doc = Err e ->
  exists pre b post rpre r rpost ne,
    doc = pre ++ b :: post /\ b = rpre ++ r :: rpost /\ bad_row r /\
    e = ParseError (last_text (tr_tds r)) ne /\
    snd (atoi (last_text (tr_tds r))) = Some ne /\
    Forall (Forall (fun r' => ~ bad_row r')) pre /\
    Forall (fun r' => ~ bad_row r') rpre.
Proof.
  intros doc e H. rewrite extract_records in H.
  destruct (records_first_err doc e H) as [pre [b [post [-> [Hb Hpre]]]]].
  destruct (row_values_first_err b e Hb) as [rpre [r [rpost [-> [Hr Hrpre]]]]].
  assert (Hbad : bad_row r) by (apply bad_row_iff; eauto).
  apply row_value_err in Hr as [s [ne [-> [_ [Hs [_ Ha]]]]]].
  exists pre, (rpre ++ r :: rpost), post, rpre, r, rpost, ne.
  subst s. split; [reflexivity|]. split; [reflexivity|]. split; [exact Hbad|].
  split; [reflexivity|]. split; [exact Ha|]. split; assumption.
Qed.

Lemma extract_first_error_witness :
  exists pre b post rpre r rpost ne,
    [[mkTr "Birk" ["Birk"; "abc"]; mkTr "El" ["El"; "x"]]] = pre ++ b :: post /\
    b = rpre ++ r :: rpost /\ bad_row r /\
    ParseError "abc" ErrSyntax = ParseError (last_text (tr_tds r)) ne /\
    snd (atoi (last_text (tr_tds r))) = Some ne /\
    Forall (Forall (fun r' => ~ bad_row r')) pre /\
    Forall (fun r' => ~ bad_row r') rpre.
Proof.
  exact (extract_first_error [[mkTr "Birk" ["Birk"; "abc"]; mkTr "El" ["El"; "x"]]]
           (ParseError "abc" ErrSyntax) eq_refl).
Defined.

(** X3: extracting two documents one after the other is extracting their
    concatenation: the records are appended, and the first error wins. *)
Theorem extract_app : forall d1 d2,
  Part001.extract (d1 ++ d2) =
  match Part001.extract d1 with
  | Err e => Err e
  | Ok f1 => match Part001.extract d2 with Ok f2 => Ok (f1 ++ f2) | Err e => Err e end
  end.
Proof. intros d1 d2. rewrite !extract_records. apply records_app. Qed.

(** X4: a row that does not have exactly two cells, placed strictly inside a
    block (neither first nor last), has no effect on the extraction. *)
Theorem extract_interior_row_ignored : forall pre post p q x,
  p <> [] -> q <> [] -> length (tr_tds x) <> 2%nat ->
  Part001.extract (pre ++ (p ++ x :: q) :: post) = Part001.extract (pre ++ (p ++ q) :: post).
Proof.
  intros pre post p q x Hp Hq Hx. rewrite !extract_records.
  apply records_block_congr. unfold block_record.
  assert (Hv : row_value x = None)
    by (apply row_value_none; unfold two_cells; apply Nat.eqb_neq; exact Hx).
  rewrite (row_values_skip p x q Hv).
  rewrite !map_app. cbn [map].
  assert (Hf : first_text (map tr_text p ++ tr_text x :: map tr_text q)
               = first_text (map tr_text p ++ map tr_text q))
    by (destruct p; [contradiction | reflexivity]).
  assert (Hq' : map tr_text q <> []) by (destruct q; [contradiction | discriminate]).
  assert (Hl : last_text (map tr_text p ++ tr_text x :: map tr_text q)
               = last_text (map tr_text p ++ map tr_text q)).
  { rewrite (last_text_app _ _ Hq').
    replace (map tr_text p ++ tr_text x :: map tr_text q)
      with ((map tr_text p ++ [tr_text x]) ++ map tr_text q)
      by (rewrite <- app_assoc; reflexivity).
    rewrite (last_text_app _ _ Hq'). reflexivity. }
  rewrite Hf, Hl. reflexivity.
Qed.

Lemma extract_interior_row_ignored_witness :
  Part001.extract [[mkTr "Aarhus" ["Aarhus"]; mkTr "---" []; mkTr "Birk12" ["Birk"; "12"]]]
  = Part001.extract [[mkTr "Aarhus" ["Aarhus"]; mkTr "Birk12" ["Birk"; "12"]]].
Proof.
  exact (extract_interior_row_ignored [] [] [mkTr "Aarhus" ["Aarhus"]]
           [mkTr "Birk12" ["Birk"; "12"]] (mkTr "---" [])
           ltac:(discriminate) ltac:(discriminate) ltac:(simpl; lia)).
Defined.

(** X5: in part_001, after any sequence of reads, spawned rebuilds and
    periodic rebuilds started with a free mutex, the mutex is free again and
    the cache holds the forecasts of the last successful rebuild (failed
    rebuilds change nothing), or the initial cache when none succeeded. *)
Theorem part001_last_rebuild_wins : forall ops st st',
  Part001.cacheMutex st = unlocked -> Part001.exec st ops = Some st' ->
  Part001.cacheMutex st' = unlocked /\ Part001.cache st' = last_success ops (Part001.cache st).
Proof. exact Part001_exec_last. Qed.

Lemma part001_last_rebuild_wins_witness :
  Part001.cacheMutex (Part001.mkState (Some []) unlocked 0) = unlocked /\
  Part001.cache (Part001.mkState (Some []) unlocked 0) =
    last_success [Part001.OPeriodic (Fetched []);
                  Part001.OPeriodic (Fetched [[mkTr "El" ["El"; "abc"]]])] None.
Proof.
  exact (part001_last_rebuild_wins
           [Part001.OPeriodic (Fetched []); Part001.OPeriodic (Fetched [[mkTr "El" ["El"; "abc"]]])]
           Part001.init (Part001.mkState (Some []) unlocked 0) eq_refl eq_refl).
Defined.

(** X6: in part_000, after any such sequence started with a free mutex, the
    mutex is free, and the cache and [cacheTimestamp] are the forecasts and
    clock of the last successful rebuild, or unchanged when none succeeded. *)
Theorem part000_last_rebuild_wins : forall ops st st',
  Part000.cacheMutex st = unlocked -> Part000.exec st ops = Some st' ->
  Part000.cacheMutex st' = unlocked /\
  match last_success000 ops None with
  | Some (fs, t) => Part000.cache st' = Some fs /\ Part000.cacheTimestamp st' = t
  | None => Part000.cache st' = Part000.cache st /\
            Part000.cacheTimestamp st' = Part000.cacheTimestamp st
  end.
Proof.
  intros ops st st' Hm He.
  exact (Part000_exec_last ops None st st st' (conj Hm (conj eq_refl eq_refl)) He).
Qed.

Lemma part000_last_rebuild_wins_witness :
  Part000.cacheMutex (Part000.mkState (Some []) 5 unlocked 0) = unlocked /\
  match last_success000 [Part000.OPeriodic (Fetched []) 5;
                         Part000.OPeriodic (FetchFail "timeout") 9] None with
  | Some (fs, t) => Part000.cache (Part000.mkState (Some []) 5 unlocked 0) = Some fs /\
                    Part000.cacheTimestamp (Part000.mkState (Some []) 5 unlocked 0) = t
  | None => Part000.cache (Part000.mkState (Some []) 5 unlocked 0) = Part000.cache Part000.init /\
            Part000.cacheTimestamp (Part000.mkState (Some []) 5 unlocked 0)
            = Part000.cacheTimestamp Part000.init
  end.
Proof.
  exact (part000_last_rebuild_wins
           [Part000.OPeriodic (Fetched []) 5; Part000.OPeriodic (FetchFail "timeout") 9]
           Part000.init (Part000.mkState (Some []) 5 unlocked 0) eq_refl eq_refl).
Defined.

(** X7: reading the cache never changes it and gives back the same mutex
    state; so two reads in a row return the same result (the same snapshot,
    or [CacheEmpty] twice), in both [fetchCache] variants. *)
Theorem fetchCache_read_twice :
  (forall st st1 st2 r1 r2, writer (Part001.cacheMutex st) = false ->
     Part001.fetchCache st = Some (st1, r1) -> Part001.fetchCache st1 = Some (st2, r2) ->
     r2 = r1 /\ Part001.cache st2 = Part001.cache st /\
     Part001.cacheMutex st2 = Part001.cacheMutex st) /\
  (forall st st1 st2 r1 r2, writer (Part000.cacheMutex st) = false ->
     Part000.fetchCache st = Some (st1, r1) -> Part000.fetchCache st1 = Some (st2, r2) ->
     r2 = r1 /\ Part000.cache st2 = Part000.cache st /\
     Part000.cacheMutex st2 = Part000.cacheMutex st /\
     Part000.cacheTimestamp st2 = Part000.cacheTimestamp st).
Proof.
  split.
  - intros st st1 st2 r1 r2 Hw H1 H2.
    rewrite Part001_fetchCache_free in H1 by exact Hw.
    destruct (Part001.cache st) eqn:Hc; inversion H1; subst.
    + rewrite Part001_fetchCache_free in H2 by exact Hw.
      rewrite Hc in H2. inversion H2; subst; auto.
    + rewrite Part001_fetchCache_free in H2 by exact Hw.
      simpl in H2. inversion H2; subst; auto.
  - intros st st1 st2 r1 r2 Hw H1 H2.
    rewrite Part000_fetchCache_free in H1 by exact Hw.
    destruct (Part000.cache st) eqn:Hc; inversion H1; subst.
    + rewrite Part000_fetchCache_free in H2 by exact Hw.
      rewrite Hc in H2. inversion H2; subst; auto.
    + rewrite Part000_fetchCache_free in H2 by exact Hw.
      simpl in H2. inversion H2; subst; auto.
Qed.

Lemma fetchCache_read_twice_witness :
  Err CacheEmpty = (Err CacheEmpty : result (list forecast)) /\
  Part001.cache (Part001.mkState None unlocked 2) = Part001.cache Part001.init /\
  Part001.cacheMutex (Part001.mkState None unlocked 2) = Part001.cacheMutex Part001.init.
Proof.
  exact (proj1 fetchCache_read_twice Part001.init (Part001.mkState None unlocked 1)
           (Part001.mkState None unlocked 2) (Err CacheEmpty) (Err CacheEmpty)
           eq_refl eq_refl eq_refl).
Defined.

(** X8: main.go's [fetchParseAndJsonify], from the start: a failed fetch or
    extraction returns the error and leaves the cache nil, so the next
    request fetches again; a success stores the forecasts, and from then on
    every request returns them without fetching, whatever the fetch would
    give. *)
Theorem main_fetch_once : forall f fetches,
  Main.fetchParseAndJsonify f Main.init =
    Some (match published Main.extract f with
          | Some fs => Main.mkState (Some fs) unlocked
          | None => Main.init
          end,
          match f with
          | FetchFail msg => Err (FetchError msg)
          | Fetched doc => Main.extract doc
          end) /\
  (forall fs, published Main.extract f = Some fs ->
     Main.serve fetches (Main.mkState (Some fs) unlocked)
     = Some (Main.mkState (Some fs) unlocked, repeat (Ok fs) (length fetches))).
Proof.
  intros f fetches. split.
  - unfold Main.fetchParseAndJsonify, published. simpl.
    destruct f as [msg|doc]; [reflexivity|].
    destruct (Main.extract doc); reflexivity.
  - intros fs _. apply Main_serve_cached; reflexivity.
Qed.

Lemma main_fetch_once_witness :
  Main.serve [FetchFail "timeout"; Fetched []] (Main.mkState (Some []) unlocked)
  = Some (Main.mkState (Some []) unlocked, [Ok []; Ok []]).
Proof.
  exact (proj2 (main_fetch_once (Fetched []) [FetchFail "timeout"; Fetched []]) [] eq_refl).
Defined.

(** X9: part_001's "/" handler after any run of cache operations from the
    start: it answers 200 with the forecasts of the last successful rebuild,
    or 500 with [CacheEmpty] when no rebuild has succeeded yet. It never
    blocks once the operations are done. *)
Theorem part001_root_after_run : forall ops st',
  Part001.exec Part001.init ops = Some st' ->
  exists st'', Part001.handle_root st' =
    Some (st'', match last_success ops None with
                | Some fs => RJSON 200 None fs
                | None => RString 500 CacheEmpty
                end).
Proof.
  intros ops st' He.
  destruct (Part001_exec_last ops Part001.init st' eq_refl He) as [Hm Hc].
  unfold Part001.handle_root.
  rewrite Part001_fetchCache_free by (rewrite Hm; reflexivity).
  rewrite Hc. simpl. destruct (last_success ops None); eexists; reflexivity.
Qed.

Lemma part001_root_after_run_witness :
  exists st'', Part001.handle_root (Part001.mkState (Some []) unlocked 0) =
    Some (st'', match last_success [Part001.ORead; Part001.ORunSpawned (Fetched [])] None with
                | Some fs => RJSON 200 None fs
                | None => RString 500 CacheEmpty
                end).
Proof.
  exact (part001_root_after_run [Part001.ORead; Part001.ORunSpawned (Fetched [])]
           (Part001.mkState (Some []) unlocked 0) eq_refl).
Defined.

(** X10: part_000's "/api" and "/" handlers after any run from the start:
    both answer with the forecasts of the last successful rebuild and the
    clock of that rebuild (JSON with an [X-Cache-Timestamp] header, or the HTML
    page), or 500 with [CacheEmpty] when no rebuild has succeeded. *)
Theorem part000_handlers_after_run : forall ops st',
  Part000.exec Part000.init ops = Some st' ->
  (exists s1, Part000.handle_api st' =
     Some (s1, match last_success000 ops None with
               | Some (fs, t) => RJSON 200 (Some t) fs
               | None => RString 500 CacheEmpty
               end)) /\
  (exists s2, Part000.handle_root st' =
     Some (s2, match last_success000 ops None with
               | Some (fs, t) => RHTML 200 fs t
               | None => RString 500 CacheEmpty
               end)).
Proof.
  intros ops st' He.
  pose proof (Part000_exec_last ops None Part000.init Part000.init st'
                (conj eq_refl (conj eq_refl eq_refl)) He) as Hi.
  unfold inv000 in Hi. unfold Part000.handle_api, Part000.handle_root.
  destruct Hi as [Hm Hc].
  rewrite Part000_fetchCache_free by (rewrite Hm; reflexivity).
  destruct (last_success000 ops None) as [[fs t]|]; destruct Hc as [Hc Ht];
    rewrite Hc; simpl; split; eexists; rewrite ?Ht; reflexivity.
Qed.

Lemma part000_handlers_after_run_witness :
  (exists s1, Part000.handle_api (Part000.mkState (Some []) 42 unlocked 0) =
     Some (s1, match last_success000 [Part000.OPeriodic (Fetched []) 42] None with
               | Some (fs, t) => RJSON 200 (Some t) fs
               | None => RString 500 CacheEmpty
               end)) /\
  (exists s2, Part000.handle_root (Part000.mkState (Some []) 42 unlocked 0) =
     Some (s2, match last_success000 [Part000.OPeriodic (Fetched []) 42] None with
               | Some (fs, t) => RHTML 200 fs t
               | None => RString 500 CacheEmpty
               end)).
Proof.
  exact (part000_handlers_after_run [Part000.OPeriodic (Fetched []) 42]
           (Part000.mkState (Some []) 42 unlocked 0) eq_refl).
Defined.

(** X11: part_001's [refreshCacheJob], started with a free mutex, never
    blocks. Either every tick's rebuild succeeds, the job keeps running,
    it logs a tick and a successful rebuild per tick, and the state is that
    of the rebuilds in order; or it stops at the first failing rebuild,
    after logging the error fatally, in the state left by the rebuilds
    before it. *)
Theorem part001_refresh_job_outcome : forall ticks st,
  Part001.cacheMutex st = unlocked ->
  match Part001.refreshCacheJob ticks st with
  | (st', evs, Running) =>
      Forall (fun f => published Part001.extract f <> None) ticks /\
      Part001.exec st (map Part001.OPeriodic ticks) = Some st' /\
      evs = flat_map (fun _ => [Tick; LogRebuildOk]) ticks
  | (st', evs, Terminated) =>
      exists pre f post e, ticks = pre ++ f :: post /\
      Forall (fun f => published Part001.extract f <> None) pre /\
      Part001.exec st (map Part001.OPeriodic pre) = Some st' /\
      Part001.rebuildCache f st' = Some (st', Some e) /\
      evs = flat_map (fun _ => [Tick; LogRebuildOk]) pre ++ [Tick; LogFatal e]
  | (_, _, Blocked) => False
  end.
Proof.
  intros ticks st Hm. pose proof (Part001_refresh_outcome ticks st Hm) as H.
  destruct (Part001.refreshCacheJob ticks st) as [[st' evs] [| |]]; [exact H| |exact H].
  destruct H as [pre [f [post [e [H1 [H2 [_ H3]]]]]]].
  exists pre, f, post, e. split; [exact H1|]. split; [exact H2|]. exact H3.
Qed.

Lemma part001_refresh_job_outcome_witness :
  match Part001.refreshCacheJob [Fetched []; Fetched [[mkTr "El" ["El"; "x"]]]] Part001.init with
  | (st', evs, Running) =>
      Forall (fun f => published Part001.extract f <> None)
        [Fetched []; Fetched [[mkTr "El" ["El"; "x"]]]] /\
      Part001.exec Part001.init
        (map Part001.OPeriodic [Fetched []; Fetched [[mkTr "El" ["El"; "x"]]]]) = Some st' /\
      evs = flat_map (fun _ => [Tick; LogRebuildOk]) [Fetched []; Fetched [[mkTr "El" ["El"; "x"]]]]
  | (st', evs, Terminated) =>
      exists pre f post e, [Fetched []; Fetched [[mkTr "El" ["El"; "x"]]]] = pre ++ f :: post /\
      Forall (fun f => published Part001.extract f <> None) pre /\
      Part001.exec Part001.init (map Part001.OPeriodic pre) = Some st' /\
      Part001.rebuildCache f st' = Some (st', Some e) /\
      evs = flat_map (fun _ => [Tick; LogRebuildOk]) pre ++ [Tick; LogFatal e]
  | (_, _, Blocked) => False
  end.
Proof.
  exact (part001_refresh_job_outcome [Fetched []; Fetched [[mkTr "El" ["El"; "x"]]]]
           Part001.init eq_refl).
Defined.

(** X12: the same for part_000's [refreshCacheJob], which rebuilds before
    waiting for the tick: on success it logs the rebuild and then ticks, and
    each rebuild stamps the cache with the clock of its iteration. *)
Theorem part000_refresh_job_outcome : forall iters st,
  Part000.cacheMutex st = unlocked ->
  match Part000.refreshCacheJob iters st with
  | (st', evs, Running) =>
      Forall (fun i => published Part000.extract (fst i) <> None) iters /\
      Part000.exec st (map (fun i => Part000.OPeriodic (fst i) (snd i)) iters) = Some st' /\
      evs = flat_map (fun _ => [LogRebuildOk; Tick]) iters
  | (st', evs, Terminated) =>
      exists pre f now post e, iters = pre ++ (f, now) :: post /\
      Forall (fun i => published Part000.extract (fst i) <> None) pre /\
      Part000.exec st (map (fun i => Part000.OPeriodic (fst i) (snd i)) pre) = Some st' /\
      Part000.rebuildCache f now st' = Some (st', Some e) /\
      evs = flat_map (fun _ => [LogRebuildOk; Tick]) pre ++ [LogFatal e]
  | (_, _, Blocked) => False
  end.
Proof.
  intros iters st Hm. pose proof (Part000_refresh_outcome iters st Hm) as H.
  destruct (Part000.refreshCacheJob iters st) as [[st' evs] [| |]]; [exact H| |exact H].
  destruct H as [pre [f [now [post [e [H1 [H2 [_ H3]]]]]]]].
  exists pre, f, now, post, e. split; [exact H1|]. split; [exact H2|]. exact H3.
Qed.

Lemma part000_refresh_job_outcome_witness :
  match Part000.refreshCacheJob [(Fetched [], 1); (FetchFail "down", 2)] Part000.init with
  | (st', evs, Running) =>
      Forall (fun i => published Part000.extract (fst i) <> None)
        [(Fetched [], 1); (FetchFail "down", 2)] /\
      Part000.exec Part000.init (map (fun i => Part000.OPeriodic (fst i) (snd i))
                                   [(Fetched [], 1); (FetchFail "down", 2)]) = Some st' /\
      evs = flat_map (fun _ => [LogRebuildOk; Tick]) [(Fetched [], 1); (FetchFail "down", 2)]
  | (st', evs, Terminated) =>
      exists pre f now post e, [(Fetched [], 1); (FetchFail "down", 2)] = pre ++ (f, now) :: post /\
      Forall (fun i => published Part000.extract (fst i) <> None) pre /\
      Part000.exec Part000.init (map (fun i => Part000.OPeriodic (fst i) (snd i)) pre) = Some st' /\
      Part000.rebuildCache f now st' = Some (st', Some e) /\
      evs = flat_map (fun _ => [LogRebuildOk; Tick]) pre ++ [LogFatal e]
  | (_, _, Blocked) => False
  end.
Proof.
  exact (part000_refresh_job_outcome [(Fetched [], 1); (FetchFail "down", 2)]
           Part000.init eq_refl).
Defined.


Lemma parseUint_loop_err : forall s n u e, parseUint_loop s n = (u, Some e) ->
  match e with ErrSyntax => u = 0 | ErrRange => u = maxUint64 end.
Proof.
  induction s as [|c s IH]; intros n u e H; simpl in H; [discriminate|].
  destruct (negb (is_digit c)); [inversion H; reflexivity|].
  destruct (n >=? cutoff10); [inversion H; reflexivity|].
  destruct (n * 10 + digit_val c >? maxUint64); [inversion H; reflexivity|].
  exact (IH _ _ _ H).
Qed.

Lemma parseUint_err : forall s u e, parseUint s = (u, Some e) ->
  match e with ErrSyntax => u = 0 | ErrRange => u = maxUint64 end.
Proof.
  intros [|c s] u e H; [simpl in H; inversion H; reflexivity|].
  exact (parseUint_loop_err _ _ _ _ H).
Qed.

Local Ltac pos_range_error :=
  match goal with
  | H : (let '(_, _) := parseUint ?s1 in _) = _, Hlen : (19 <= _)%nat |- _ =>
      destruct (parseUint s1) as [un err] eqn:Hu;
      destruct err as [[|]|];
      [ inversion H; reflexivity
      | pose proof (parseUint_err _ _ _ Hu) as Hm; simpl in Hm; subst un;
        cbn [negb andb] in H;
        assert (Hg : (maxUint64 >=? 2 ^ 63) = true) by reflexivity;
        rewrite Hg in H; inversion H; subst; split; [reflexivity|exact Hlen]
      | cbn [negb andb] in H; destruct (un >=? 2 ^ 63); [|discriminate H];
        inversion H; subst; split; [reflexivity|exact Hlen] ]
  end.

Local Ltac neg_range_error :=
  match goal with
  | H : (let '(_, _) := parseUint ?s1 in _) = _, Hlen : (19 <= _)%nat |- _ =>
      destruct (parseUint s1) as [un err] eqn:Hu;
      destruct err as [[|]|];
      [ inversion H; reflexivity
      | pose proof (parseUint_err _ _ _ Hu) as Hm; simpl in Hm; subst un;
        cbn [negb andb] in H;
        assert (Hg : (maxUint64 >? 2 ^ 63) = true) by reflexivity;
        rewrite Hg in H; inversion H; subst; split; [reflexivity|exact Hlen]
      | cbn [negb andb] in H; destruct (un >? 2 ^ 63); [|discriminate H];
        inversion H; subst; split; [reflexivity|exact Hlen] ]
  end.

Lemma atoi_error_shape : forall s v e, atoi s = (v, Some e) ->
  match e with
  | ErrSyntax => v = 0
  | ErrRange =>
      v = match s with
          | String c _ => if ascii_dec c "-" then - 2 ^ 63 else 2 ^ 63 - 1
          | EmptyString => 0
          end /\ (19 <= String.length s)%nat
  end.
Proof.
  intros s v e H. unfold atoi in H.
  destruct ((0 <? String.length s)%nat && (String.length s <? 19)%nat) eqn:Hl.
  - destruct s as [|c0 rest]; [inversion H; reflexivity|].
    destruct (is_sign c0 && _)%bool; [inversion H; reflexivity|].
    destruct (atoi_fast_digits _ 0); inversion H; reflexivity.
  - destruct s as [|c rest]; [inversion H; reflexivity|].
    assert (Hlen : (19 <= String.length (String c rest))%nat).
    { apply andb_false_iff in Hl as [Hl|Hl]; apply Nat.ltb_ge in Hl; simpl in *; lia. }
    unfold parseInt in H.
    revert H. cbv beta iota.
    destruct (ascii_dec c "+") as [Hplus|Hp]; [|destruct (ascii_dec c "-") as [Hmin|Hn]].
    + destruct (ascii_dec c "-") as [Habs|_]; [rewrite Hplus in Habs; discriminate Habs|].
      intro H. pos_range_error.
    + destruct (ascii_dec c "-") as [_|Habs]; [|contradiction].
      intro H. neg_range_error.
    + destruct (ascii_dec c "-") as [Habs|_]; [contradiction|].
      intro H. pos_range_error.
Qed.

(** X13: the values [strconv.Atoi] returns with an error: 0 with a syntax
    error; with a range error, [-2^63] when the input starts with '-' and
    [2^63 - 1] otherwise (the [int64] bound on the side of the sign). A range
    error only comes from the slow path, for inputs of at least 19 bytes. *)
Theorem atoi_error_values : forall s v e, atoi s = (v, Some e) ->
  match e with
  | ErrSyntax => v = 0
  | ErrRange =>
      v = match s with
          | String c _ => if ascii_dec c "-" then - 2 ^ 63 else 2 ^ 63 - 1
          | EmptyString => 0
          end /\ (19 <= String.length s)%nat
  end.
Proof. exact atoi_error_shape. Qed.

Lemma atoi_error_values_witness :
  (- 2 ^ 63 = - 2 ^ 63 /\ (19 <= String.length "-99999999999999999999")%nat) /\
  (2 ^ 63 - 1 = 2 ^ 63 - 1 /\ (19 <= String.length "+99999999999999999999")%nat).
Proof.
  split.
  - exact (atoi_error_values "-99999999999999999999" (- 2 ^ 63) ErrRange (eq_refl _)).
  - exact (atoi_error_values "+99999999999999999999" (2 ^ 63 - 1) ErrRange (eq_refl _)).
Defined.

(** X14: a rebuild fails with a range error only on a value cell of at least
    19 bytes; shorter cells that do not parse give a syntax error. *)
Theorem extract_range_error_long_cell : forall doc s,
  Part001.extract doc = Err (ParseError s ErrRange) -> (19 <= String.length s)%nat.
Proof.
  intros doc s H. rewrite extract_records in H.
  destruct (records_err doc _ H) as [b [r [_ [_ Hr]]]].
  apply row_value_err in Hr as [s' [ne [He [_ [_ [_ Ha]]]]]].
  injection He as <- <-.
  destruct (atoi s) as [v e'] eqn:Hat. simpl in Ha. rewrite Ha in Hat.
  exact (proj2 (atoi_error_shape _ _ _ Hat)).
Qed.

Lemma extract_range_error_long_cell_witness :
  (19 <= String.length "99999999999999999999")%nat.
Proof.
  exact (extract_range_error_long_cell [[mkTr "El" ["El"; "99999999999999999999"]]]
           "99999999999999999999" (eq_refl _)).
Defined.

End Extras.
